(** * Mini-Lop: a shallow embedding of the fuzzer core

    The development follows the Python sources file by file:
    [seed.py], [feedback.py], [schedule.py], [mutation.py] and [main.py].

    Modelling conventions.
    - Python integers are [Z] (or [nat] for lengths, ids and edge indexes);
      the bitwise operators [&] and [^] are [Z.land] and [Z.lxor].
    - A byte buffer ([bytes], [bytearray]) is a [list Z] of values in
      [0, 256).
    - Times in seconds are rationals [Q]: the value of the binary64 float
      the source holds.  The valuation of a seed, which decides the order
      of a sort, is the float product of the source: [spec_float] of the
      Standard Library at 53 bits, rounded to nearest, ties to even.
    - A [dict] is a [gmap], a [set] is a [gset], a Python list is a [list]
      read with [!!] and updated with [<[i:=x]>].
    - Everything with an effect (files, the random generator, the target,
      the shared coverage map, standard output) runs in the monad [M] over
      the record [World]; [None] stands for an uncaught Python exception.
*)

From Stdlib Require Import ZArith QArith Lia SpecFloat.
From stdpp Require Import gmap strings list fin_maps pretty sorting.

(** ** The world: files, randomness, target, shared memory, output *)

(** What one execution of the target leaves behind: the wait status read
    from the fork server (or the timeout value 9), the wall time and the
    coverage bitmap written to shared memory. *)
Record RunResult := {
  rr_status : Z;
  rr_time : Q;
  rr_trace : list Z
}.

(** The lines the modelled code prints. *)
Inductive Msg :=
| MsgFoundCrash (signal_name : string) (actual_signal : Z)
| MsgCoreDump
| MsgDryRunTimeout (seed_file : string)
| MsgDryRunCrash (seed_file : string)
| MsgDryRunFinished (edges : nat)
| MsgNewCycle (cycle_count : nat)
| MsgNoSeeds
| MsgTimeout
| MsgCrashSaved (crash_path : string)
| MsgNewCoverage (edges : nat).

Record World := {
  fs : gmap string (list Z);          (* file name -> contents *)
  tape : nat → Z;                     (* raw draws of the random generator *)
  pos : nat;                          (* draws consumed so far *)
  target : nat → option (list Z) → RunResult;
                                      (* n-th execution, on the input file *)
  nruns : nat;                        (* executions so far *)
  shm : list Z;                       (* the shared coverage map *)
  wall_clock : nat → Z;               (* int(time.time()) after n executions *)
  stdout : list Msg
}.

Definition set_fs (f : gmap string (list Z)) (w : World) : World :=
  {| fs := f; tape := tape w; pos := pos w; target := target w;
     nruns := nruns w; shm := shm w; wall_clock := wall_clock w;
     stdout := stdout w |}.

Definition set_pos (p : nat) (w : World) : World :=
  {| fs := fs w; tape := tape w; pos := p; target := target w;
     nruns := nruns w; shm := shm w; wall_clock := wall_clock w;
     stdout := stdout w |}.

Definition set_run (n : nat) (bits : list Z) (w : World) : World :=
  {| fs := fs w; tape := tape w; pos := pos w; target := target w;
     nruns := n; shm := bits; wall_clock := wall_clock w;
     stdout := stdout w |}.

Definition set_stdout (o : list Msg) (w : World) : World :=
  {| fs := fs w; tape := tape w; pos := pos w; target := target w;
     nruns := nruns w; shm := shm w; wall_clock := wall_clock w;
     stdout := o |}.

(** State and exception monad. *)
Definition M (A : Type) : Type := World → option (A * World).

Global Instance M_ret : MRet M := λ A x w, Some (x, w).
Global Instance M_bind : MBind M := λ A B f m w,
  match m w with
  | Some (x, w') => f x w'
  | None => None
  end.

Definition raise {A} : M A := λ _, None.

Definition print (m : Msg) : M unit :=
  λ w, Some (tt, set_stdout (stdout w ++ [m]) w).

(** [open(path, 'rb').read()]: a missing file raises. *)
Definition read_file (p : string) : M (list Z) :=
  λ w, match fs w !! p with
       | Some d => Some (d, w)
       | None => None
       end.

(** [open(path, 'wb').write(data)] *)
Definition write_file (p : string) (data : list Z) : M unit :=
  λ w, Some (tt, set_fs (<[p := data]> (fs w)) w).

(** [shutil.copyfile(src, dst)] *)
Definition copyfile (src dst : string) : M unit :=
  data ← read_file src; write_file dst data.

(** [random.randint(lo, hi)]: both ends included, an empty range raises. *)
Definition randint (lo hi : Z) : M Z :=
  λ w, if (hi <? lo)%Z then None
       else Some ((lo + tape w (pos w) `mod` (hi - lo + 1))%Z,
                  set_pos (S (pos w)) w).

(** [random.choice(l)]: an empty list raises. *)
Definition random_choice {A} (l : list A) : M A :=
  match l with
  | [] => raise
  | x :: _ =>
      i ← randint 0 (Z.of_nat (length l) - 1);
      mret (nth (Z.to_nat i) l x)
  end.

(** [random.random()]: a multiple of 2^-53 in [0, 1). *)
Definition random_random : M Q :=
  λ w, Some (Qmake (tape w (pos w) `mod` 2 ^ 53) (2 ^ 53),
             set_pos (S (pos w)) w).

(** ** seed.py *)

Record Seed := {
  path : string;
  seed_id : nat;
  coverage : gset nat;
  exec_time : Q;
  file_size : Z;
  favored : bool
}.

(** [Seed.__init__]: the size is read from the file, the flag starts off. *)
Definition Seed_init (p : string) (id : nat) (cov : gset nat) (t : Q) : M Seed :=
  data ← read_file p;
  mret {| path := p; seed_id := id; coverage := cov; exec_time := t;
          file_size := Z.of_nat (length data); favored := false |}.

Definition set_favored (b : bool) (s : Seed) : Seed :=
  {| path := path s; seed_id := seed_id s; coverage := coverage s;
     exec_time := exec_time s; file_size := file_size s; favored := b |}.

Definition mark_favored : Seed → Seed := set_favored true.
Definition unmark_favored : Seed → Seed := set_favored false.

(** *** Python floats

    A Python [float] is an IEEE 754 binary64 number: a [spec_float] with 53
    bits of precision and exponents below 1024.  Every operation returns
    the float nearest to the exact result, ties going to the even
    significand. *)

(** [float(n)] for an integer, as the mixed product [float * int] converts
    its integer operand: exact below 2^53, rounded above.  (From 2^1024 on
    Python raises [OverflowError] where this returns infinity; a file size
    stays below 2^63.) *)
Definition float_of_int (n : Z) : spec_float :=
  binary_normalize 53 1024 n 0 false.

(** The float nearest to a rational.  The quotient is taken to 1076
    binary places, beyond the last place of every float, with one more
    bit that tells whether anything was cut off; the rational a float
    stands for comes back as that float. *)
Definition float_of_Q (x : Q) : spec_float :=
  let n := (Qnum x * 2 ^ 1076)%Z in
  let d := Zpos (Qden x) in
  let sticky := if (Z.rem n d =? 0)%Z then 0%Z else Z.sgn n in
  binary_normalize 53 1024 (2 * Z.quot n d + sticky) (-1077) false.

Definition float_mul : spec_float → spec_float → spec_float := SFmul 53 1024.

Definition is_nan (x : spec_float) : bool :=
  match x with S754_nan => true | _ => false end.

(** [get_valuation]: the float product [self.exec_time * self.file_size]. *)
Definition get_valuation (s : Seed) : spec_float :=
  float_mul (float_of_Q (exec_time s)) (float_of_int (file_size s)).

(** ** feedback.py *)

Definition MAP_SIZE_POW2 : Z := 16.
Definition MAP_SIZE : Z := Z.shiftl 1 MAP_SIZE_POW2.

Definition crash_signals : gmap Z string :=
  list_to_map
    [ (1, "SIGHUP"); (2, "SIGINT"); (3, "SIGQUIT"); (4, "SIGILL");
      (6, "SIGABRT"); (7, "SIGBUS"); (8, "SIGFPE"); (9, "SIGKILL");
      (11, "SIGSEGV"); (13, "SIGPIPE"); (14, "SIGALRM"); (15, "SIGTERM");
      (24, "SIGXCPU"); (25, "SIGXFSZ"); (31, "SIGSYS") ]%Z.

(** The keys of [crash_signals]. *)
Definition crash_signal_numbers : list Z :=
  [1; 2; 3; 4; 6; 7; 8; 9; 11; 13; 14; 15; 24; 25; 31]%Z.

Definition check_crash (status_code : Z) : M bool :=
  let is_core_dump := negb (Z.land status_code 0x80 =? 0)%Z in
  let actual_signal := Z.land status_code 0x7f in
  if bool_decide (is_Some (crash_signals !! actual_signal)) || is_core_dump
  then
    let signal_name := default "Unknown signal" (crash_signals !! actual_signal) in
    print (MsgFoundCrash signal_name actual_signal);;
    (if is_core_dump then print MsgCoreDump else mret tt);;
    mret true
  else mret false.

(** [check_coverage]: the indexes of the non-zero bytes of the map, and
    whether one of them is outside the global coverage. *)
Fixpoint nonzero_indexes (idx : nat) (raw_bitmap : list Z) : gset nat :=
  match raw_bitmap with
  | [] => ∅
  | byte :: rest =>
      if (byte =? 0)%Z then nonzero_indexes (S idx) rest
      else {[ idx ]} ∪ nonzero_indexes (S idx) rest
  end.

Definition check_coverage (global_coverage : gset nat) : M (bool * gset nat) :=
  λ w,
    let current_coverage := nonzero_indexes 0 (shm w) in
    let new_edges := current_coverage ∖ global_coverage in
    Some ((bool_decide (new_edges ≠ ∅), current_coverage), w).

(** ** schedule.py *)

(** Python's [<] on two times. *)
Definition Qltb (x y : Q) : bool :=
  (Qnum x * Zpos (Qden y) <? Qnum y * Zpos (Qden x))%Z.

(** Python's [>=], read from the right: [Qleb x y] is [y >= x]. *)
Definition Qleb (x y : Q) : bool := negb (Qltb y x).

(** [min(a, b)] and [max(a, b)] of Python keep the first argument unless
    the second is strictly smaller (larger). *)
Definition py_min (a b : Q) : Q := if Qltb b a then b else a.
Definition py_max (a b : Q) : Q := if Qltb a b then b else a.

(** [int(x)]: truncation towards zero. *)
Definition py_int (x : Q) : Z := Z.quot (Qnum x) (Zpos (Qden x)).

(** [select_next_seed], as [run_fuzzing] calls it: with a set and a count
    (never [None]).  The returned set is the caller's set object, cleared
    in place at a cycle boundary. *)
Definition select_next_seed (seed_queue : list Seed)
    (seeds_used_in_cycle : gset nat) (cycle_seed_count : nat)
  : M (option Seed * gset nat * nat * bool) :=
  match seed_queue with
  | [] => mret (None, seeds_used_in_cycle, cycle_seed_count, false)
  | _ :: _ =>
      let '(seeds_used_in_cycle, cycle_seed_count, new_cycle) :=
        if decide (cycle_seed_count ≤ size seeds_used_in_cycle)
        then (∅, length seed_queue, true)
        else (seeds_used_in_cycle, cycle_seed_count, false) in
      let unused_seeds :=
        filter (λ s, seed_id s ∉ seeds_used_in_cycle) seed_queue in
      let unused_favored :=
        filter (λ s, favored s = true) unused_seeds in
      selected_seed ←
        match unused_favored with
        | [] => random_choice unused_seeds
        | _ :: _ =>
            r ← random_random;
            if Qltb r (9 # 10) then random_choice unused_favored
            else random_choice unused_seeds
        end;
      mret (Some selected_seed,
            {[ seed_id selected_seed ]} ∪ seeds_used_in_cycle,
            cycle_seed_count, new_cycle)
  end.

Definition get_power_schedule (seed : Seed) (avg_exec_time : Q) : Z :=
  let perf_score : Q := 100%Q in
  let perf_score :=
    if Qltb 0 (exec_time seed) && Qltb 0 avg_exec_time then
      let time_factor := (avg_exec_time / exec_time seed)%Q in
      let time_factor := py_min (py_max time_factor (1 # 10)) 3%Q in
      (perf_score * time_factor)%Q
    else perf_score in
  let coverage_factor :=
    (1 + inject_Z (Z.of_nat (size (coverage seed))) / 100)%Q in
  let perf_score := (perf_score * coverage_factor)%Q in
  let max_mutations := 1000%Z in
  let mutations := py_int ((perf_score / 100) * 100)%Q in
  let mutations := Z.min mutations max_mutations in
  let mutations := Z.max mutations 1 in
  mutations.

(** ** main.py: favored seeds *)

(** [list.sort(key=...)] is a stable sort that compares keys with [<],
    here the [<] of floats: insertion from the right keeps equal keys in
    their original order. *)
Fixpoint insert_by_key {A} (key : A → spec_float) (x : A) (l : list A) : list A :=
  match l with
  | [] => [x]
  | y :: l' =>
      if SFltb (key y) (key x) then y :: insert_by_key key x l'
      else x :: y :: l'
  end.

Definition sort_by_key {A} (key : A → spec_float) (l : list A) : list A :=
  foldr (insert_by_key key) [] l.

(** One edge of [update_favored_seeds].  The comprehension
    [[seed_queue[seed_id] for seed_id in seed_ids]] collects references to
    the seed objects of the queue: a reference is the queue position it was
    read from, so that marking [seeds[0]] marks the object in the queue.
    An id outside the queue or an empty list raises [IndexError]. *)
Definition mark_edge (seed_queue : list Seed) (seed_ids : list nat)
  : option (list Seed) :=
  seeds ← mapM (λ seed_id, (λ s, (seed_id, s)) <$> seed_queue !! seed_id) seed_ids;
  let seeds := sort_by_key (λ r, get_valuation (snd r)) seeds in
  match seeds with
  | [] => None
  | (ref, s) :: _ => Some (<[ref := mark_favored s]> seed_queue)
  end.

(** The pass over [edge_to_seeds.items()].  The marks of different edges
    commute and an exception ends the fuzzer, so the order in which the
    dictionary is visited does not show in the result. *)
Definition update_favored_seeds (seed_queue : list Seed)
    (edge_to_seeds : gmap nat (list nat)) : option (list Seed) :=
  map_fold (λ _ seed_ids acc, q ← acc; mark_edge q seed_ids)
           (Some (unmark_favored <$> seed_queue)) edge_to_seeds.

(** ** mutation.py *)

Definition INTERESTING_16 : list Z :=
  [0; -32768; 32767; -1; 1; -128; 128; 255; -256; 256; 65535]%Z.

Definition INTERESTING_32 : list Z :=
  [0; -2147483648; 2147483647; -1; 1; -32768; 32767; -65536; 65535;
   -100663046; 100663046]%Z.

Definition INTERESTING_64 : list Z :=
  [0; -1; 1; -4294967296; 4294967296; -2147483648; 2147483647;
   9223372036854775807; -9223372036854775808]%Z.

(** The keys of the configuration dictionary that the modelled code reads. *)
Record Conf := {
  queue_folder : string;
  crashes_folder : string;
  current_input : string
}.

(** *** struct: little-endian signed integers of 2, 4 and 8 bytes *)

Fixpoint le_bytes (size : nat) (value : Z) : list Z :=
  match size with
  | O => []
  | S k => (value `mod` 256)%Z :: le_bytes k (value `div` 256)%Z
  end.

Fixpoint le_unsigned (bs : list Z) : Z :=
  match bs with
  | [] => 0
  | b :: bs' => (b + 256 * le_unsigned bs')%Z
  end.

(** [struct.pack_into(fmt, data, idx, value)]: [None] is [struct.error],
    raised when the value does not fit the format or the buffer is too
    short. *)
Definition pack_into (size : nat) (data : list Z) (idx : nat) (value : Z)
  : option (list Z) :=
  let half := (2 ^ (8 * Z.of_nat size - 1))%Z in
  if bool_decide (- half ≤ value < half)%Z && bool_decide (idx + size ≤ length data)
  then Some (take idx data ++ le_bytes size value ++ drop (idx + size) data)
  else None.

(** [struct.unpack_from(fmt, data, idx)[0]] *)
Definition unpack_from (size : nat) (data : list Z) (idx : nat) : option Z :=
  if bool_decide (idx + size ≤ length data) then
    let u := le_unsigned (take size (drop idx data)) in
    let half := (2 ^ (8 * Z.of_nat size - 1))%Z in
    Some (if (u <? half)%Z then u else (u - 2 * half)%Z)
  else None.

Definition lift_option {A} (o : option A) : M A :=
  λ w, match o with Some x => Some (x, w) | None => None end.

(** [data[a:b] = chunk] for [0 <= a <= b]. *)
Definition assign_slice (data : list Z) (a b : nat) (chunk : list Z) : list Z :=
  take a data ++ chunk ++ drop b data.

Module HavocMutator.

Record t := {
  conf : Conf;
  dictionary : list (list Z)   (* the tokens [load_dictionary] returned *)
}.

Definition bit_flip_mutation (data : list Z) : M (list Z) :=
  idx ← randint 0 (Z.of_nat (length data) - 1);
  bit_pos ← randint 0 7;
  match data !! Z.to_nat idx with
  | Some b => mret (<[Z.to_nat idx := Z.lxor b (Z.shiftl 1 bit_pos)]> data)
  | None => raise
  end.

Definition integer_mutation (data : list Z) : M (list Z) :=
  let sizes := [ (2, -32768, 32767);
                 (4, -2147483648, 2147483647);
                 (8, -9223372036854775808, 9223372036854775807) ]%Z in
  '(size, min_val, max_val) ← random_choice sizes;
  if (Z.of_nat (length data) <? size)%Z then mret data
  else
    idx ← randint 0 (Z.of_nat (length data) - size);
    value ← randint min_val max_val;
    lift_option (pack_into (Z.to_nat size) data (Z.to_nat idx) value).

Definition interesting_value_mutation (data : list Z) : M (list Z) :=
  let sizes :=
    [ (2, [-32768; 32767; -1; 0; 1; -128; 127; 255; -256; 256;
           Z.land 65535 0x7fff]);
      (4, INTERESTING_32);
      (8, INTERESTING_64) ]%Z in
  '(size, interesting_vals) ← random_choice sizes;
  if (Z.of_nat (length data) <? size)%Z then mret data
  else
    idx ← randint 0 (Z.of_nat (length data) - size);
    value ← random_choice interesting_vals;
    match pack_into (Z.to_nat size) data (Z.to_nat idx) value with
    | Some data' => mret data'
    | None =>
        if (0 <? value)%Z
        then lift_option (pack_into (Z.to_nat size) data (Z.to_nat idx)
                            (Z.shiftl 1 (size * 8 - 1) - 1))
        else lift_option (pack_into (Z.to_nat size) data (Z.to_nat idx)
                            (- Z.shiftl 1 (size * 8 - 1)))
    end.

Definition chunk_replacement_mutation (data : list Z) : M (list Z) :=
  if (length data <? 4)%nat then mret data
  else
    chunk_size ← randint 2 (Z.min 32 (Z.of_nat (length data) `div` 2));
    src_pos ← randint 0 (Z.of_nat (length data) - chunk_size);
    dst_pos ← randint 0 (Z.of_nat (length data) - chunk_size);
    let chunk_size := Z.to_nat chunk_size in
    let src_pos := Z.to_nat src_pos in
    let dst_pos := Z.to_nat dst_pos in
    let chunk := take chunk_size (drop src_pos data) in
    mret (assign_slice data dst_pos (dst_pos + chunk_size) chunk).

Definition arithmetic_mutation (data : list Z) : M (list Z) :=
  let sizes := [ (2, -256, 256);
                 (4, -65536, 65536);
                 (8, -4294967296, 4294967296) ]%Z in
  '(size, min_delta, max_delta) ← random_choice sizes;
  if (Z.of_nat (length data) <? size)%Z then mret data
  else
    idx ← randint 0 (Z.of_nat (length data) - size);
    value ← lift_option (unpack_from (Z.to_nat size) data (Z.to_nat idx));
    delta ← randint min_delta max_delta;
    match pack_into (Z.to_nat size) data (Z.to_nat idx) (value + delta) with
    | Some data' => mret data'
    | None =>
        if (0 <? delta)%Z
        then lift_option (pack_into (Z.to_nat size) data (Z.to_nat idx) min_delta)
        else lift_option (pack_into (Z.to_nat size) data (Z.to_nat idx) max_delta)
    end.

Definition dictionary_insert_mutation (self : t) (data : list Z) : M (list Z) :=
  match dictionary self with
  | [] => mret data
  | _ :: _ =>
      token ← random_choice (dictionary self);
      if (length data <? 2)%nat then mret (data ++ token)
      else
        pos ← randint 0 (Z.of_nat (length data) - 1);
        mret (assign_slice data (Z.to_nat pos) (Z.to_nat pos) token)
  end.

Definition dictionary_replace_mutation (self : t) (data : list Z) : M (list Z) :=
  match dictionary self with
  | [] => mret data
  | _ :: _ =>
      if (length data <? 2)%nat then mret data
      else
        token ← random_choice (dictionary self);
        if (length data <? length token)%nat then mret data
        else
          pos ← randint 0 (Z.of_nat (length data) - Z.of_nat (length token));
          mret (assign_slice data (Z.to_nat pos)
                  (Z.to_nat pos + length token) token)
  end.

(** One round of the mutation loop. *)
Definition mutate_once (self : t) (data : list Z) : M (list Z) :=
  mutation_choice ← randint 0 6;
  if (mutation_choice =? 0)%Z then bit_flip_mutation data
  else if (mutation_choice =? 1)%Z then integer_mutation data
  else if (mutation_choice =? 2)%Z then interesting_value_mutation data
  else if (mutation_choice =? 3)%Z then chunk_replacement_mutation data
  else if (mutation_choice =? 4)%Z then dictionary_insert_mutation self data
  else if (mutation_choice =? 5)%Z then dictionary_replace_mutation self data
  else arithmetic_mutation data.

(** [for _ in range(num_mutations)] *)
Fixpoint mutate_loop (self : t) (num_mutations : nat) (data : list Z)
  : M (list Z) :=
  match num_mutations with
  | O => mret data
  | S k => data' ← mutate_once self data; mutate_loop self k data'
  end.

(** The buffer that [mutate] writes when the seed has 8 bytes or more. *)
Definition havoc (self : t) (data : list Z) : M (list Z) :=
  num_mutations ← randint 1 (Z.max 4 (Z.of_nat (length data) `div` 100));
  mutate_loop self (Z.to_nat num_mutations) data.

Definition mutate (self : t) (seed : Seed) : M unit :=
  data ← read_file (path seed);
  if (length data <? 8)%nat then mret tt
  else
    data' ← havoc self data;
    write_file (current_input (conf self)) data'.

End HavocMutator.

Module SpliceMutator.

Record t := {
  conf : Conf;
  havoc_mutator : HavocMutator.t
}.

(** [SpliceMutator.__init__]: the havoc mutator is built on the same
    configuration; [dictionary] is what [load_dictionary] returns. *)
Definition init (cf : Conf) (dictionary : list (list Z)) : t :=
  {| conf := cf;
     havoc_mutator := {| HavocMutator.conf := cf;
                         HavocMutator.dictionary := dictionary |} |}.

Definition mutate (self : t) (seed : Seed) (seed_queue : list Seed) : M unit :=
  if (length seed_queue <? 2)%nat then
    HavocMutator.mutate (havoc_mutator self) seed
  else
    let other_seeds :=
      filter (λ s, seed_id s ≠ seed_id seed) seed_queue in
    other_seed ← random_choice other_seeds;
    data1 ← read_file (path seed);
    data2 ← read_file (path other_seed);
    if (length data1 <? 4)%nat || (length data2 <? 4)%nat then
      HavocMutator.mutate (havoc_mutator self) seed
    else
      split_point1 ← randint 1 (Z.of_nat (length data1) - 2);
      split_point2 ← randint 1 (Z.of_nat (length data2) - 2);
      let spliced_data :=
        take (Z.to_nat split_point1) data1 ++ drop (Z.to_nat split_point2) data2 in
      write_file (current_input (conf self)) spliced_data;;
      HavocMutator.mutate (havoc_mutator self) seed.

End SpliceMutator.

Inductive Operator := havoc | splice.

Module MutationStrategy.

Record t := {
  havoc_mutator : HavocMutator.t;
  splice_mutator : SpliceMutator.t;
  epsilon : Q;
  havoc_rewards : Z;
  splice_rewards : Z;
  havoc_uses : Z;
  splice_uses : Z;
  havoc_crashes : Z;
  splice_crashes : Z
}.

(** [MutationStrategy.__init__]; [dictionary] is what [load_dictionary]
    returns for the configured file. *)
Definition init (cf : Conf) (dictionary : list (list Z)) : t :=
  {| havoc_mutator := {| HavocMutator.conf := cf;
                         HavocMutator.dictionary := dictionary |};
     splice_mutator := SpliceMutator.init cf dictionary;
     epsilon := 1 # 10;
     havoc_rewards := 0; splice_rewards := 0;
     havoc_uses := 0; splice_uses := 0;
     havoc_crashes := 0; splice_crashes := 0 |}.

Definition select_operator (self : t) : M Operator :=
  r ← random_random;
  if Qltb r (epsilon self) then random_choice [havoc; splice]
  else
    let havoc_score :=
      (inject_Z (havoc_rewards self + havoc_crashes self * 10)
         / inject_Z (Z.max 1 (havoc_uses self)))%Q in
    let splice_score :=
      (inject_Z (splice_rewards self + splice_crashes self * 10)
         / inject_Z (Z.max 1 (splice_uses self)))%Q in
    mret (if Qleb splice_score havoc_score then havoc else splice).

Definition update_rewards (self : t) (operator : Operator)
    (new_coverage : Z) (crashed : bool) : t :=
  match operator with
  | havoc =>
      {| havoc_mutator := havoc_mutator self;
         splice_mutator := splice_mutator self;
         epsilon := epsilon self;
         havoc_rewards := havoc_rewards self + new_coverage;
         splice_rewards := splice_rewards self;
         havoc_uses := havoc_uses self + 1;
         splice_uses := splice_uses self;
         havoc_crashes :=
           if crashed : bool then havoc_crashes self + 1 else havoc_crashes self;
         splice_crashes := splice_crashes self |}
  | splice =>
      {| havoc_mutator := havoc_mutator self;
         splice_mutator := splice_mutator self;
         epsilon := epsilon self;
         havoc_rewards := havoc_rewards self;
         splice_rewards := splice_rewards self + new_coverage;
         havoc_uses := havoc_uses self;
         splice_uses := splice_uses self + 1;
         havoc_crashes := havoc_crashes self;
         splice_crashes :=
           if crashed : bool then splice_crashes self + 1 else splice_crashes self |}
  end.

End MutationStrategy.

(** ** main.py *)

(** [os.path.join(a, b)] and [os.path.basename(p)] on POSIX paths. *)
Definition slash : Ascii.ascii := Ascii.ascii_of_nat 47.

Definition starts_with_slash (s : string) : bool :=
  match s with
  | String c _ => Ascii.eqb c slash
  | EmptyString => false
  end.

Fixpoint ends_with_slash (s : string) : bool :=
  match s with
  | EmptyString => false
  | String c EmptyString => Ascii.eqb c slash
  | String _ s' => ends_with_slash s'
  end.

Fixpoint contains_slash (s : string) : bool :=
  match s with
  | EmptyString => false
  | String c s' => Ascii.eqb c slash || contains_slash s'
  end.

Definition path_join (a b : string) : string :=
  if starts_with_slash b then b
  else if String.eqb a "" || ends_with_slash a then a +:+ b
  else a +:+ "/" +:+ b.

Fixpoint basename (p : string) : string :=
  match p with
  | EmptyString => EmptyString
  | String c p' => if contains_slash p then basename p' else p
  end.

(** What the next execution of the target returns. *)
Definition next_run (cf : Conf) (w : World) : RunResult :=
  target w (nruns w) (fs w !! current_input cf).

(** Modelled from the spec: [run_target] of execution.py, which is not
    among the sources.  It zeroes the shared map, asks the fork server for
    one execution of the target on [current_input], and returns the wait
    status and the elapsed time; when the status does not arrive in time
    the returned status is 9.  The target is the oracle [target] of the
    world. *)
Definition run_target (cf : Conf) : M (Z * Q) :=
  λ w,
    let r := next_run cf w in
    Some ((rr_status r, rr_time r), set_run (S (nruns w)) (rr_trace r) w).

(** [time.time()] truncated to an integer. *)
Definition time_now : M Z := λ w, Some (wall_clock w (nruns w), w).

(** The local variables of [run_fuzzing]. *)
Record FuzzState := {
  seed_queue : list Seed;
  global_coverage : gset nat;
  edge_to_seeds : gmap nat (list nat);
  cycle_count : nat;
  seeds_used_in_cycle : gset nat;
  cycle_seed_count : nat;
  seed_queue_length : nat;
  total_exec_time : Q;
  exec_count : Z;
  avg_exec_time : Q;
  mutation_strategy : MutationStrategy.t
}.

Definition with_stats (total : Q) (count : Z) (avg : Q) (st : FuzzState) : FuzzState :=
  {| seed_queue := seed_queue st; global_coverage := global_coverage st;
     edge_to_seeds := edge_to_seeds st; cycle_count := cycle_count st;
     seeds_used_in_cycle := seeds_used_in_cycle st;
     cycle_seed_count := cycle_seed_count st;
     seed_queue_length := seed_queue_length st;
     total_exec_time := total; exec_count := count; avg_exec_time := avg;
     mutation_strategy := mutation_strategy st |}.

Definition with_seeds (q : list Seed) (cov : gset nat)
    (index : gmap nat (list nat)) (qlen : nat) (st : FuzzState) : FuzzState :=
  {| seed_queue := q; global_coverage := cov; edge_to_seeds := index;
     cycle_count := cycle_count st;
     seeds_used_in_cycle := seeds_used_in_cycle st;
     cycle_seed_count := cycle_seed_count st;
     seed_queue_length := qlen;
     total_exec_time := total_exec_time st; exec_count := exec_count st;
     avg_exec_time := avg_exec_time st;
     mutation_strategy := mutation_strategy st |}.

Definition with_cycle (cycles : nat) (used : gset nat) (count : nat)
    (st : FuzzState) : FuzzState :=
  {| seed_queue := seed_queue st; global_coverage := global_coverage st;
     edge_to_seeds := edge_to_seeds st; cycle_count := cycles;
     seeds_used_in_cycle := used; cycle_seed_count := count;
     seed_queue_length := seed_queue_length st;
     total_exec_time := total_exec_time st; exec_count := exec_count st;
     avg_exec_time := avg_exec_time st;
     mutation_strategy := mutation_strategy st |}.

Definition with_strategy (ms : MutationStrategy.t) (st : FuzzState) : FuzzState :=
  {| seed_queue := seed_queue st; global_coverage := global_coverage st;
     edge_to_seeds := edge_to_seeds st; cycle_count := cycle_count st;
     seeds_used_in_cycle := seeds_used_in_cycle st;
     cycle_seed_count := cycle_seed_count st;
     seed_queue_length := seed_queue_length st;
     total_exec_time := total_exec_time st; exec_count := exec_count st;
     avg_exec_time := avg_exec_time st;
     mutation_strategy := ms |}.

(** The locals as they stand before the dry run. *)
Definition initial_state (cf : Conf) (dictionary : list (list Z)) : FuzzState :=
  {| seed_queue := []; global_coverage := ∅; edge_to_seeds := ∅;
     cycle_count := 0; seeds_used_in_cycle := ∅; cycle_seed_count := 0;
     seed_queue_length := 0;
     total_exec_time := 0; exec_count := 0; avg_exec_time := 0;
     mutation_strategy := MutationStrategy.init cf dictionary |}.

(** [for edge in seed_coverage: ... edge_to_seeds[edge].append(seed_id)] *)
Definition index_edges (seed_coverage : gset nat) (id : nat)
    (edge_to_seeds : gmap nat (list nat)) : gmap nat (list nat) :=
  set_fold (λ edge index, <[edge := default [] (index !! edge) ++ [id]]> index)
           edge_to_seeds seed_coverage.

Definition save_crash_input (cf : Conf) (seed_path : string) (status_code : Z)
  : M string :=
  timestamp ← time_now;
  let crash_filename :=
    if String.eqb seed_path "" then "crash_" +:+ pretty timestamp
    else "crash_" +:+ pretty timestamp +:+ "_" +:+ basename seed_path in
  let crash_path := path_join (crashes_folder cf) crash_filename in
  copyfile (current_input cf) crash_path;;
  mret crash_path.

(** The dry run: what follows [run_target] for the seed file number [i]
    (lines 83 to 100). *)
Definition dry_run_result (cf : Conf) (i : nat) (seed_file seed_path : string)
    (status_code : Z) (exec_time : Q) (st : FuzzState) : M FuzzState :=
  if (status_code =? 9)%Z then
    print (MsgDryRunTimeout seed_file);; mret st
  else
    crashed ← check_crash status_code;
    if crashed : bool then
      print (MsgDryRunCrash seed_file);; mret st
    else
      '(new_edge_covered, seed_coverage) ← check_coverage (global_coverage st);
      let global_coverage' := global_coverage st ∪ seed_coverage in
      let edge_to_seeds' := index_edges seed_coverage i (edge_to_seeds st) in
      new_seed ← Seed_init seed_path i seed_coverage exec_time;
      mret (with_stats (total_exec_time st + exec_time)%Q (exec_count st + 1)%Z
                       (avg_exec_time st)
              (with_seeds (seed_queue st ++ [new_seed]) global_coverage'
                          edge_to_seeds' (seed_queue_length st) st)).

(** One round of the dry run (lines 80 to 100). *)
Definition dry_run_one (cf : Conf) (i : nat) (seed_file : string)
    (st : FuzzState) : M FuzzState :=
  let seed_path := path_join (queue_folder cf) seed_file in
  copyfile seed_path (current_input cf);;
  '(status_code, exec_time) ← run_target cf;
  dry_run_result cf i seed_file seed_path status_code exec_time st.

(** [for i, seed_file in enumerate(seed_files)] *)
Fixpoint dry_run (cf : Conf) (i : nat) (seed_files : list string)
    (st : FuzzState) : M FuzzState :=
  match seed_files with
  | [] => mret st
  | seed_file :: rest =>
      st' ← dry_run_one cf i seed_file st;
      dry_run cf (S i) rest st'
  end.

(** The fuzzing loop: what follows [run_target] for one mutated input
    (lines 143 to 173). *)
Definition fuzz_result (cf : Conf) (selected_seed : Seed) (operator : Operator)
    (status_code : Z) (exec_time : Q) (st : FuzzState) : M FuzzState :=
  let total := (total_exec_time st + exec_time)%Q in
  let count := (exec_count st + 1)%Z in
  let st := with_stats total count (total / inject_Z count)%Q st in
  if (status_code =? 9)%Z then
    print MsgTimeout;; mret st
  else
    crashed ← check_crash status_code;
    if crashed : bool then
      crash_path ← save_crash_input cf (path selected_seed) status_code;
      print (MsgCrashSaved crash_path);;
      mret (with_strategy
              (MutationStrategy.update_rewards (mutation_strategy st)
                 operator 0 true) st)
    else
      '(new_edge_covered, seed_coverage) ← check_coverage (global_coverage st);
      if new_edge_covered : bool then
        print (MsgNewCoverage (size (global_coverage st)));;
        let global_coverage' := global_coverage st ∪ seed_coverage in
        let id := length (seed_queue st) in
        let edge_to_seeds' := index_edges seed_coverage id (edge_to_seeds st) in
        let new_seed_path := path_join (queue_folder cf) ("id_" +:+ pretty id) in
        copyfile (current_input cf) new_seed_path;;
        new_seed ← Seed_init new_seed_path id seed_coverage exec_time;
        let st := with_seeds (seed_queue st ++ [new_seed]) global_coverage'
                             edge_to_seeds' (S (seed_queue_length st)) st in
        mret (with_strategy
                (MutationStrategy.update_rewards (mutation_strategy st) operator
                   (Z.of_nat (size (seed_coverage ∖ global_coverage'))) false) st)
      else mret st.

(** The choice of the operator and the mutation (lines 136 to 140). *)
Definition choose_and_mutate (selected_seed : Seed) (st : FuzzState)
  : M Operator :=
  let ms := mutation_strategy st in
  operator ← MutationStrategy.select_operator ms;
  match operator with
  | havoc =>
      HavocMutator.mutate (MutationStrategy.havoc_mutator ms) selected_seed
  | splice =>
      SpliceMutator.mutate (MutationStrategy.splice_mutator ms) selected_seed
        (seed_queue st)
  end;;
  mret operator.

(** One round of [for _ in range(power_schedule)] (lines 136 to 173). *)
Definition fuzz_one (cf : Conf) (selected_seed : Seed) (st : FuzzState)
  : M FuzzState :=
  operator ← choose_and_mutate selected_seed st;
  '(status_code, exec_time) ← run_target cf;
  fuzz_result cf selected_seed operator status_code exec_time st.

Fixpoint fuzz_many (cf : Conf) (selected_seed : Seed) (power_schedule : nat)
    (st : FuzzState) : M FuzzState :=
  match power_schedule with
  | O => mret st
  | S k => st' ← fuzz_one cf selected_seed st; fuzz_many cf selected_seed k st'
  end.

(** One round of [while True]; [None] is the [break]. *)
Definition fuzz_round (cf : Conf) (st : FuzzState) : M (option FuzzState) :=
  '(selected_seed, used, count, new_cycle) ←
    select_next_seed (seed_queue st) (seeds_used_in_cycle st)
                     (cycle_seed_count st);
  let st := with_cycle (cycle_count st) used count st in
  st ← (if new_cycle : bool then
          let st := with_cycle (S (cycle_count st)) used count st in
          print (MsgNewCycle (cycle_count st));;
          q ← lift_option (update_favored_seeds (seed_queue st) (edge_to_seeds st));
          mret (with_seeds q (global_coverage st) (edge_to_seeds st)
                           (seed_queue_length st) st)
        else mret st);
  match selected_seed with
  | None => print MsgNoSeeds;; mret None
  | Some selected_seed =>
      let power_schedule := get_power_schedule selected_seed (avg_exec_time st) in
      st' ← fuzz_many cf selected_seed (Z.to_nat power_schedule) st;
      mret (Some st')
  end.

(** [while True], cut after [rounds] rounds. *)
Fixpoint fuzz_loop (cf : Conf) (rounds : nat) (st : FuzzState) : M FuzzState :=
  match rounds with
  | O => mret st
  | S k =>
      r ← fuzz_round cf st;
      match r with
      | None => mret st
      | Some st' => fuzz_loop cf k st'
      end
  end.

(** [run_fuzzing] up to the loop: dry run, average time, favored seeds,
    cycle tracking.  [seed_files] is the listing of the queue folder after
    the corpus was copied into it. *)
Definition run_dry_run (cf : Conf) (dictionary : list (list Z))
    (seed_files : list string) : M FuzzState :=
  st ← dry_run cf 0 seed_files (initial_state cf dictionary);
  let avg :=
    if (0 <? exec_count st)%Z
    then (total_exec_time st / inject_Z (exec_count st))%Q else (1 # 10)%Q in
  let st := with_stats (total_exec_time st) (exec_count st) avg st in
  q ← lift_option (update_favored_seeds (seed_queue st) (edge_to_seeds st));
  let st := with_seeds q (global_coverage st) (edge_to_seeds st)
                       (seed_queue_length st) st in
  print (MsgDryRunFinished (size (global_coverage st)));;
  mret (with_cycle 0 ∅ (length (seed_queue st)) st).

Definition run_fuzzing (cf : Conf) (dictionary : list (list Z))
    (seed_files : list string) (rounds : nat) : M FuzzState :=
  st ← run_dry_run cf dictionary seed_files;
  fuzz_loop cf rounds st.

(** ** Vocabulary of the statements *)

(** The first element of least key: what a stable sort puts in front. *)
Fixpoint first_min {A} (key : A → spec_float) (l : list A) : option A :=
  match l with
  | [] => None
  | x :: l' =>
      match first_min key l' with
      | None => Some x
      | Some m => if SFltb (key m) (key x) then Some m else Some x
      end
  end.

(** The valuation of the seed at a queue position. *)
Definition valuation_at (q : list Seed) (p : nat) : spec_float :=
  from_option get_valuation (S754_zero false) (q !! p).

(** The place of a float that is not NaN in the order of [<]: sign class
    first, then exponent and significand, both counted downwards on the
    negative side.  The two zeros share a place. *)
Definition float_rank (x : spec_float) : Z * Z * Z :=
  match x with
  | S754_infinity true => (-2, 0, 0)
  | S754_finite true m e => (-1, - e, Zneg m)
  | S754_zero _ | S754_nan => (0, 0, 0)
  | S754_finite false m e => (1, e, Zpos m)
  | S754_infinity false => (2, 0, 0)
  end%Z.

Definition rank_lt (a b : Z * Z * Z) : Prop :=
  (a.1.1 < b.1.1 ∨
   (a.1.1 = b.1.1 ∧ (a.1.2 < b.1.2 ∨ (a.1.2 = b.1.2 ∧ a.2 < b.2))))%Z.

(** Every seed of the queue has a valuation that [<] can order: the
    product is defined (the size converts to a float) and is not NaN.
    Measured times are finite, so are their products with a file size. *)
Definition valuation_is_number (s : Seed) : bool :=
  (Z.abs (file_size s) <? 2 ^ 1024)%Z && negb (is_nan (get_valuation s)).

Definition valuations_are_numbers (q : list Seed) : Prop :=
  Forall (λ s, valuation_is_number s = true) q.

(** The queue position that [update_favored_seeds] marks for a seed list. *)
Definition pick (q : list Seed) (seed_ids : list nat) : option nat :=
  first_min (valuation_at q) seed_ids.

(** Every seed sits at the queue position given by its id. *)
Definition ids_are_positions (q : list Seed) : Prop :=
  seed_id <$> q = seq 0 (length q).

(** The index lists only ids of the queue. *)
Definition index_valid (q : list Seed) (index : gmap nat (list nat)) : Prop :=
  map_Forall (λ _ ids, Forall (λ i, i < length q) ids) index.

(** No edge has an empty list, and every list is in ascending order of id:
    the shape [run_fuzzing] gives the index when ids grow. *)
Definition index_ascending (index : gmap nat (list nat)) : Prop :=
  map_Forall (λ _ ids, ids ≠ [] ∧ StronglySorted le ids) index.

(** Seed [p] covers the edge listed as [ids] and has the least
    (valuation, id) of the seeds listed. *)
Definition min_cover (q : list Seed) (ids : list nat) (p : nat) : Prop :=
  p ∈ ids ∧
  ∃ s, q !! p = Some s ∧
    ∀ p' s', p' ∈ ids → q !! p' = Some s' →
      SFltb (get_valuation s) (get_valuation s') = true ∨
      (SFeqb (get_valuation s) (get_valuation s') = true ∧ seed_id s ≤ seed_id s').

(** Two queues that differ in favored flags only. *)
Definition same_seeds (q q' : list Seed) : Prop :=
  unmark_favored <$> q' = unmark_favored <$> q.

(** A sequence of calls of [select_next_seed] on one queue, each in a
    world of its own, the returned set and count of a call being the
    arguments of the next.  The trace lists the returned seed ids with the
    new-cycle flags. *)
Inductive select_calls (seed_queue : list Seed)
  : gset nat → nat → list (nat * bool) → gset nat → nat → Prop :=
| select_calls_nil used count :
    select_calls seed_queue used count [] used count
| select_calls_cons used count w selected used1 count1 new_cycle w1
      trace used2 count2 :
    select_next_seed seed_queue used count w
      = Some ((Some selected, used1, count1, new_cycle), w1) →
    select_calls seed_queue used1 count1 trace used2 count2 →
    select_calls seed_queue used count
      ((seed_id selected, new_cycle) :: trace) used2 count2.

(** No id occurs twice in the trace without a new-cycle signal after the
    first and not later than the second occurrence. *)
Definition no_repeat_within_cycle (trace : list (nat * bool)) : Prop :=
  ∀ i j id nci ncj,
    i < j → trace !! i = Some (id, nci) → trace !! j = Some (id, ncj) →
    ∃ k idk, i < k ≤ j ∧ trace !! k = Some (idk, true).

(** The set and the count a call of [select_next_seed] works with after
    its boundary test, and the new-cycle flag. *)
Definition cycle_start (seed_queue : list Seed) (used : gset nat) (count : nat)
  : gset nat * nat * bool :=
  if decide (count ≤ size used) then (∅, length seed_queue, true)
  else (used, count, false).

(** The path the splice mutator of the bandit writes to. *)
Definition splice_input (st : FuzzState) : string :=
  current_input
    (SpliceMutator.conf (MutationStrategy.splice_mutator (mutation_strategy st))).

(** [returns_longer data m]: in every world the computation [m] returns a
    buffer at least as long as [data], touching no file. *)
Definition returns_longer (data : list Z) (m : M (list Z)) : Prop :=
  ∀ w, ∃ data' w', m w = Some (data', w') ∧ length data ≤ length data'
                   ∧ fs w' = fs w.

(** ** Concrete inputs used in examples *)

Definition example_seed (id : nat) (cov : list nat) (t : Q) (size : Z) : Seed :=
  {| path := "queue/" +:+ pretty id; seed_id := id; coverage := list_to_set cov;
     exec_time := t; file_size := size; favored := false |}.

(** Two seeds that share edge 1; seed 0 alone covers edge 2, seed 1 alone
    covers edge 3; valuations 10 and 20. *)
Definition two_seed_queue : list Seed :=
  [example_seed 0 [1; 2] 1 10; example_seed 1 [1; 3] 1 20].

Definition two_seed_index : gmap nat (list nat) :=
  <[1 := [0; 1]]> (<[2 := [0]]> (<[3 := [1]]> ∅)).

(** Two seeds of equal valuation, listed under edge 7 with the higher id
    first. *)
Definition tie_queue : list Seed :=
  [example_seed 0 [7] 1 4; example_seed 1 [7] 1 4].

Definition tie_index : gmap nat (list nat) := {[ 7 := [1; 0] ]}.

(** Two seeds whose exact products differ, 3 + 2^-50 against 3 + 3 * 2^-52,
    and whose float products are the same number. *)
Definition rounded_tie_queue : list Seed :=
  [example_seed 0 [7] (3 + (1 # 2 ^ 50)) 1; example_seed 1 [7] (1 + (1 # 2 ^ 52)) 3].

Definition rounded_tie_index : gmap nat (list nat) := {[ 7 := [0; 1] ]}.

(** A world with no files, a random generator that always draws 0 and a
    target that exits normally at once and covers nothing. *)
Definition quiet_world : World :=
  {| fs := ∅; tape := λ _, 0%Z; pos := 0;
     target := λ _ _, {| rr_status := 0; rr_time := 1 # 100; rr_trace := [] |};
     nruns := 0; shm := []; wall_clock := λ _, 1700000000%Z; stdout := [] |}.

Definition example_conf : Conf :=
  {| queue_folder := "out/queue"; crashes_folder := "out/crashes";
     current_input := "out/cur" |}.

(** A normal exit after a hundredth of a second, and a segmentation fault
    with core dump (status 139). *)
Definition ok_run (trace : list Z) : RunResult :=
  {| rr_status := 0; rr_time := 1 # 100; rr_trace := trace |}.

Definition segv_run : RunResult :=
  {| rr_status := 139; rr_time := 1 # 100; rr_trace := [] |}.

(** A corpus of two files; the target crashes on its first execution, then
    exits normally with coverage map [second] on the next execution and
    [later] on all the following ones. *)
Definition crash_first_world (second later : list Z) : World :=
  {| fs := <["out/queue/a" := [65]%Z]> (<["out/queue/b" := [66]%Z]> ∅);
     tape := λ _, 0%Z; pos := 0;
     target := λ n _, match n with
                      | 0 => segv_run
                      | 1 => ok_run second
                      | _ => ok_run later
                      end;
     nruns := 0; shm := []; wall_clock := λ _, 1700000000%Z; stdout := [] |}.

(** A corpus of one file of eight bytes; the target always exits normally,
    with coverage map [first] on its first execution and [later] on all the
    following ones. *)
Definition one_seed_world (first later : list Z) : World :=
  {| fs := {[ "out/queue/seed" := [83; 69; 69; 68; 48; 48; 48; 49]%Z ]};
     tape := λ _, 0%Z; pos := 0;
     target := λ n _, match n with
                      | 0 => ok_run first
                      | _ => ok_run later
                      end;
     nruns := 0; shm := []; wall_clock := λ _, 1700000000%Z; stdout := [] |}.

(** The same corpus with a target that never answers in time. *)
Definition timeout_world : World :=
  {| fs := {[ "out/queue/seed" := [83; 69; 69; 68; 48; 48; 48; 49]%Z ]};
     tape := λ _, 0%Z; pos := 0;
     target := λ _ _, {| rr_status := 9; rr_time := 1; rr_trace := [] |};
     nruns := 0; shm := []; wall_clock := λ _, 1700000000%Z; stdout := [] |}.

(** The seed the dry run creates for the one-file corpus. *)
Definition one_seed : Seed :=
  {| path := "out/queue/seed"; seed_id := 0; coverage := {[ 0 ]};
     exec_time := 1 # 100; file_size := 8; favored := false |}.

(** Two seeds in the queue folder, with files [a] and [b], and a stale
    input file. *)
Definition two_file_world (a b : list Z) : World :=
  {| fs := <["out/queue/a" := a]> (<["out/queue/b" := b]>
             {[ "out/cur" := [9; 9]%Z ]});
     tape := λ _, 0%Z; pos := 0;
     target := λ _ _, ok_run [1]%Z;
     nruns := 0; shm := []; wall_clock := λ _, 1700000000%Z; stdout := [] |}.

Definition seed_a (size : Z) : Seed :=
  {| path := "out/queue/a"; seed_id := 0; coverage := {[ 0 ]};
     exec_time := 1 # 100; file_size := size; favored := false |}.

Definition seed_b (size : Z) : Seed :=
  {| path := "out/queue/b"; seed_id := 1; coverage := {[ 0 ]};
     exec_time := 1 # 100; file_size := size; favored := false |}.

(** The two files again, with a random generator whose second draw is 1:
    the bandit explores (first draw 0) and picks splice. *)
Definition splice_draw_world (a b : list Z) : World :=
  {| fs := <["out/queue/a" := a]> (<["out/queue/b" := b]>
             {[ "out/cur" := [9; 9]%Z ]});
     tape := λ n, match n with 1 => 1%Z | _ => 0%Z end; pos := 0;
     target := λ _ _, ok_run [1]%Z;
     nruns := 0; shm := []; wall_clock := λ _, 1700000000%Z; stdout := [] |}.

(** The state of the loop with both seeds, of four bytes each, in the
    queue. *)
Definition two_seed_state : FuzzState :=
  with_seeds [seed_a 4; seed_b 4] {[ 0 ]} {[ 0 := [0; 1] ]} 2
    (initial_state example_conf []).

(** ** Further functions of the sources *)

(** feedback.py, [clear_shm]: [ctypes.memset(trace_bits, 0, MAP_SIZE)] on
    the segment of [MAP_SIZE] bytes. *)
Definition clear_shm : M unit :=
  λ w, Some (tt, set_run (nruns w) (replicate (Z.to_nat MAP_SIZE) 0%Z) w).

(** mutation.py, [HavocMutator.load_dictionary].  Iterating a file opened
    in binary mode yields its lines, each with its newline (byte 10), and a
    last line without one when the file does not end in a newline. *)
Fixpoint file_lines_from (line : list Z) (content : list Z) : list (list Z) :=
  match content with
  | [] => match line with [] => [] | _ :: _ => [line] end
  | b :: rest =>
      if (b =? 10)%Z then (line ++ [b]) :: file_lines_from [] rest
      else file_lines_from (line ++ [b]) rest
  end.

Definition file_lines (content : list Z) : list (list Z) :=
  file_lines_from [] content.

(** The bytes that [bytes.strip()] removes: space, tab, newline, vertical
    tab, form feed, carriage return. *)
Definition is_space (b : Z) : bool :=
  (b =? 32)%Z || ((9 <=? b)%Z && (b <=? 13)%Z).

(** The second piece of the line split at its double quotes (byte 34),
    for a line that holds one: what lies between the first quote and the
    next one, or the end of the line. *)
Fixpoint after_quote (line : list Z) : list Z :=
  match line with
  | [] => []
  | b :: rest => if (b =? 34)%Z then rest else after_quote rest
  end.

Fixpoint until_quote (line : list Z) : list Z :=
  match line with
  | [] => []
  | b :: rest => if (b =? 34)%Z then [] else b :: until_quote rest
  end.

(** The body of the loop over the lines: comment lines (first byte 35) and
    lines of white space are skipped, a line with a quote gives a token. *)
Definition dictionary_tokens (lines : list (list Z)) : list (list Z) :=
  foldr (λ line tokens,
           if bool_decide (head line = Some 35%Z) || forallb is_space line
           then tokens
           else if bool_decide (34%Z ∈ line)
                then until_quote (after_quote line) :: tokens
                else tokens)
        [] lines.

(** [dict_file] is [conf.get('dictionary_file')]: [None] when the key is
    absent; [os.path.exists] is the presence of the file. *)
Definition load_dictionary (dict_file : option string) : M (list (list Z)) :=
  match dict_file with
  | None => mret []
  | Some p =>
      if String.eqb p "" then mret []
      else λ w, match fs w !! p with
                | None => Some ([], w)
                | Some content => Some (dictionary_tokens (file_lines content), w)
                end
  end.

(** [HavocMutator.__init__] and the module function [havoc_mutation]. *)
Definition HavocMutator_init (cf : Conf) (dict_file : option string)
  : M HavocMutator.t :=
  dictionary ← load_dictionary dict_file;
  mret {| HavocMutator.conf := cf; HavocMutator.dictionary := dictionary |}.

Definition havoc_mutation (cf : Conf) (dict_file : option string) (seed : Seed)
  : M unit :=
  mutator ← HavocMutator_init cf dict_file;
  HavocMutator.mutate mutator seed.

(** The dictionary format of the docstring of [load_dictionary], line by
    line: a comment, an empty line, or a token between double quotes. *)
Inductive DictLine :=
| DictComment (text : list Z)
| DictBlank
| DictToken (token : list Z).

Definition render_line (l : DictLine) : list Z :=
  match l with
  | DictComment text => 35%Z :: (text ++ [10%Z])
  | DictBlank => [10%Z]
  | DictToken token => 34%Z :: (token ++ [34%Z; 10%Z])
  end.

Definition render_dictionary (ls : list DictLine) : list Z :=
  concat (render_line <$> ls).

Definition line_token (l : DictLine) : option (list Z) :=
  match l with
  | DictToken token => Some token
  | _ => None
  end.

(** No newline inside a line, no double quote inside a token. *)
Definition line_ok (l : DictLine) : Prop :=
  match l with
  | DictComment text => 10%Z ∉ text
  | DictBlank => True
  | DictToken token => (10%Z ∉ token) ∧ (34%Z ∉ token)
  end.

(** The value [random.random()] returns next. *)
Definition next_random (w : World) : Q :=
  Qmake (tape w (pos w) `mod` 2 ^ 53) (2 ^ 53).

(** A report to the bandit: the arguments of one call of [update_rewards]. *)
Definition Report : Type := Operator * Z * bool.

Definition report (self : MutationStrategy.t) (r : Report) : MutationStrategy.t :=
  MutationStrategy.update_rewards self r.1.1 r.1.2 r.2.

Definition is_for (operator : Operator) (r : Report) : bool :=
  match operator, r.1.1 with
  | havoc, havoc | splice, splice => true
  | _, _ => false
  end.

(** Tallies over a list of reports: how many are for the operator, the sum
    of their coverage, how many of them are crashes. *)
Definition tally_uses (operator : Operator) (rs : list Report) : Z :=
  Z.of_nat (length (filter (λ r, is_for operator r = true) rs)).

Definition tally_rewards (operator : Operator) (rs : list Report) : Z :=
  foldr (λ r acc, if is_for operator r then (r.1.2 + acc)%Z else acc) 0%Z rs.

Definition tally_crashes (operator : Operator) (rs : list Report) : Z :=
  Z.of_nat (length (filter (λ r, is_for operator r && r.2 = true) rs)).

(** A buffer of bytes. *)
Definition is_bytes (data : list Z) : Prop :=
  Forall (λ b, (0 ≤ b < 256)%Z) data.

(** [ensures P m]: whatever the computation [m] returns satisfies [P]. *)
Definition ensures {A} (P : A → Prop) (m : M A) : Prop :=
  ∀ w x w', m w = Some (x, w') → P x.

(** The answer of [check_crash], without its printing. *)
Definition crash_status (status_code : Z) : bool :=
  bool_decide (is_Some (crash_signals !! Z.land status_code 0x7f))
  || negb (Z.land status_code 0x80 =? 0)%Z.

(** The name [save_crash_input] gives the crash file. *)
Definition crash_file_name (timestamp : Z) (seed_path : string) : string :=
  if String.eqb seed_path "" then "crash_" +:+ pretty timestamp
  else "crash_" +:+ pretty timestamp +:+ "_" +:+ basename seed_path.

(** One change of the queue, the global coverage and the index: a seed is
    appended, its coverage merged and its edges indexed under its id (in
    the [dense] case the id is the queue length), or only favored flags
    change. *)
Inductive queue_step (dense : bool) (st st' : FuzzState) : Prop :=
| queue_step_add (s : Seed) :
    (dense = true → seed_id s = length (seed_queue st)) →
    favored s = false →
    seed_queue st' = seed_queue st ++ [s] →
    global_coverage st' = global_coverage st ∪ coverage s →
    edge_to_seeds st'
      = index_edges (coverage s) (seed_id s) (edge_to_seeds st) →
    queue_step dense st st'
| queue_step_flags :
    same_seeds (seed_queue st) (seed_queue st') →
    global_coverage st' = global_coverage st →
    edge_to_seeds st' = edge_to_seeds st →
    queue_step dense st st'.

(** The index is the inverse of the seeds' coverage: under an edge it
    lists the ids of the seeds that cover it, and only those; the global
    coverage is the union of the seeds' coverage. *)
Definition coverage_consistent (st : FuzzState) : Prop :=
  (∀ e, e ∈ global_coverage st ↔ ∃ s, s ∈ seed_queue st ∧ e ∈ coverage s) ∧
  (∀ e id, (∃ ids, edge_to_seeds st !! e = Some ids ∧ id ∈ ids) ↔
           ∃ s, s ∈ seed_queue st ∧ seed_id s = id ∧ e ∈ coverage s).

(** What the favored pass needs of a state. *)
Definition queue_shape (st : FuzzState) : Prop :=
  ids_are_positions (seed_queue st) ∧
  index_valid (seed_queue st) (edge_to_seeds st) ∧
  index_ascending (edge_to_seeds st).

(** * Theorems *)

Lemma crash_signals_dom (s : Z) :
  is_Some (crash_signals !! s) ↔ s ∈ crash_signal_numbers.
Proof.
  unfold crash_signals. rewrite <- elem_of_dom, dom_list_to_map_L.
  rewrite elem_of_list_to_set. reflexivity.
Qed.

(** C8: [check_crash] answers [True] exactly when the low seven bits of the
    status are one of the fifteen listed signals or bit 0x80 is set; 139
    is a crash, 0 is not. *)
Theorem check_crash_spec :
  (∀ (status : Z) (w : World),
      ∃ b w', check_crash status w = Some (b, w') ∧
        (b = true ↔
           Z.land status 0x7F ∈ crash_signal_numbers ∨ Z.land status 0x80 ≠ 0%Z))
  ∧ (∀ w, fst <$> check_crash 139 w = Some true)
  ∧ (∀ w, fst <$> check_crash 0 w = Some false).
Proof.
  split; [|split].
  - intros status w. unfold check_crash.
    destruct (Z.eqb_spec (Z.land status 128) 0) as [Hc|Hc];
      case_bool_decide as Hs; rewrite crash_signals_dom in Hs; simpl;
      do 2 eexists; (split; [reflexivity|]); intuition congruence.
  - intros w. vm_compute. reflexivity.
  - intros w. vm_compute. reflexivity.
Qed.

(** C9: the mutation budget is between 1 and 1000, whatever the seed and
    the average execution time. *)
Theorem get_power_schedule_bounds (seed : Seed) (avg_exec_time : Q) :
  (1 ≤ get_power_schedule seed avg_exec_time ≤ 1000)%Z.
Proof. unfold get_power_schedule. lia. Qed.

(** A seed four times faster than the average that covers 200 edges gets
    100 x 3 x 3 = 900 mutations. *)
Example get_power_schedule_fast_seed :
  get_power_schedule (example_seed 0 (seq 0 200) (1 # 4) 10) 1 = 900%Z.
Proof. vm_compute. reflexivity. Qed.

(** A slow seed without coverage gets 100 x 0.1 = 10 mutations. *)
Example get_power_schedule_slow_seed :
  get_power_schedule (example_seed 0 [] 50 10) 1 = 10%Z.
Proof. vm_compute. reflexivity. Qed.

(** Little-endian two's complement: -2 on two bytes is FE FF. *)
Example pack_into_minus_two :
  pack_into 2 [1; 2; 3; 4]%Z 1 (-2) = Some [1; 254; 255; 4]%Z ∧
  unpack_from 2 [1; 254; 255; 4]%Z 1 = Some (-2)%Z ∧
  pack_into 2 [1; 2; 3; 4]%Z 1 40000 = None ∧
  pack_into 2 [1; 2; 3; 4]%Z 3 7 = None.
Proof. repeat split; vm_compute; reflexivity. Qed.

Example path_join_basename :
  path_join "out/queue" "id_3" = "out/queue/id_3" ∧
  path_join "out/" "x" = "out/x" ∧ path_join "out" "/x" = "/x" ∧
  basename "out/queue/id_3" = "id_3" ∧ basename "seed" = "seed".
Proof. repeat split; vm_compute; reflexivity. Qed.

(** ** Favored seeds *)

Lemma Qltb_lt (x y : Q) : Qltb x y = true ↔ (x < y)%Q.
Proof. unfold Qltb, Qlt. apply Z.ltb_lt. Qed.

Lemma Qltb_ge (x y : Q) : Qltb x y = false ↔ (y <= x)%Q.
Proof. unfold Qltb, Qle. apply Z.ltb_ge. Qed.

(** *** The order of floats

    On floats that are not NaN, [<] is a strict weak order: it compares
    the places given by [float_rank]. *)

Ltac rank_case :=
  let H := fresh in
  split; intros H;
    [first [discriminate H | unfold rank_lt; simpl; lia | injection H; lia | congruence]
    |first [reflexivity | exfalso; unfold rank_lt in H; simpl in H; lia
           | exfalso; injection H; lia]].

Lemma SFltb_rank (x y : spec_float) :
  is_nan x = false → is_nan y = false →
  SFltb x y = true ↔ rank_lt (float_rank x) (float_rank y).
Proof.
  unfold SFltb.
  destruct x as [[]|[]| |[] m e], y as [[]|[]| |[] m' e']; simpl;
    intros Hx Hy; try discriminate; try rank_case.
  - destruct (Z.compare_spec e e'); simpl; try rank_case.
    change (Pos.compare_cont Eq m m') with (Pos.compare m m').
    destruct (Pos.compare_spec m m'); simpl; rank_case.
  - destruct (Z.compare_spec e e'); simpl; try rank_case.
    change (Pos.compare_cont Eq m m') with (Pos.compare m m').
    destruct (Pos.compare_spec m m'); simpl; rank_case.
Qed.

Lemma SFeqb_rank (x y : spec_float) :
  is_nan x = false → is_nan y = false →
  SFeqb x y = true ↔ float_rank x = float_rank y.
Proof.
  unfold SFeqb.
  destruct x as [[]|[]| |[] m e], y as [[]|[]| |[] m' e']; simpl;
    intros Hx Hy; try discriminate; try rank_case.
  - destruct (Z.compare_spec e e'); simpl; try rank_case.
    change (Pos.compare_cont Eq m m') with (Pos.compare m m').
    destruct (Pos.compare_spec m m'); simpl; rank_case.
  - destruct (Z.compare_spec e e'); simpl; try rank_case.
    change (Pos.compare_cont Eq m m') with (Pos.compare m m').
    destruct (Pos.compare_spec m m'); simpl; rank_case.
Qed.

Lemma SFltb_not_nan (x y : spec_float) :
  SFltb x y = true → is_nan x = false ∧ is_nan y = false.
Proof. by destruct x, y. Qed.

Lemma SFeqb_not_nan (x y : spec_float) :
  SFeqb x y = true → is_nan x = false ∧ is_nan y = false.
Proof. by destruct x, y. Qed.

Lemma SFltb_irrefl (x : spec_float) : SFltb x x = false.
Proof.
  destruct (is_nan x) eqn:Hx; [by destruct x|].
  apply not_true_is_false. rewrite SFltb_rank by done. unfold rank_lt. lia.
Qed.

Lemma SFltb_trans (x y z : spec_float) :
  SFltb x y = true → SFltb y z = true → SFltb x z = true.
Proof.
  intros Hxy Hyz.
  destruct (SFltb_not_nan _ _ Hxy), (SFltb_not_nan _ _ Hyz).
  rewrite SFltb_rank in * by done. unfold rank_lt in *. lia.
Qed.

(** [>=] is transitive through a float that is not NaN. *)
Lemma SFltb_false_trans (x y z : spec_float) :
  is_nan y = false →
  SFltb x y = false → SFltb y z = false → SFltb x z = false.
Proof.
  intros Hy Hxy Hyz.
  destruct (is_nan x) eqn:Hx; [by destruct x|].
  destruct (is_nan z) eqn:Hz; [by destruct x, z|].
  apply not_true_iff_false in Hxy, Hyz. apply not_true_iff_false.
  rewrite SFltb_rank in * by done. unfold rank_lt in *. lia.
Qed.

Lemma SFltb_false_eqb (x y : spec_float) :
  is_nan x = false → is_nan y = false →
  SFltb x y = false → SFltb y x = false → SFeqb x y = true.
Proof.
  intros Hx Hy Hxy Hyx. apply not_true_iff_false in Hxy, Hyx.
  rewrite SFltb_rank in * by done. rewrite SFeqb_rank by done.
  unfold rank_lt in *.
  destruct (float_rank x) as [[??]?], (float_rank y) as [[??]?]; simpl in *.
  repeat f_equal; lia.
Qed.

Lemma SFeqb_not_ltb (x y : spec_float) :
  SFeqb x y = true → SFltb x y = false ∧ SFltb y x = false.
Proof.
  intros Heq. destruct (SFeqb_not_nan _ _ Heq).
  apply SFeqb_rank in Heq; [|done..].
  split; apply not_true_iff_false; rewrite SFltb_rank by done;
    rewrite Heq; unfold rank_lt; lia.
Qed.

Section first_min.
Context {A : Type} (key : A → spec_float).

Lemma head_insert_by_key (x : A) (l : list A) :
  head (insert_by_key key x l) =
    match head l with
    | None => Some x
    | Some y => if SFltb (key y) (key x) then Some y else Some x
    end.
Proof. destruct l as [|y l]; simpl; [done|]. by destruct (SFltb _ _). Qed.

Lemma head_sort_by_key (l : list A) :
  head (sort_by_key key l) = first_min key l.
Proof.
  induction l as [|x l IH]; simpl; [done|].
  fold (sort_by_key key l). by rewrite head_insert_by_key, IH.
Qed.

Lemma first_min_is_Some (l : list A) : l ≠ [] → is_Some (first_min key l).
Proof.
  destruct l as [|x l]; [done|]. intros _. simpl.
  destruct (first_min key l); [destruct (SFltb _ _)|]; eauto.
Qed.

Lemma first_min_elem_of (l : list A) (m : A) :
  first_min key l = Some m → m ∈ l.
Proof.
  revert m. induction l as [|x l IH]; intros m; simpl; [done|].
  destruct (first_min key l) as [m'|].
  - destruct (SFltb _ _); intros [= <-]; [|left]. right. by apply IH.
  - intros [= <-]. left.
Qed.

(** When no key is NaN, everything before the chosen element is strictly
    larger and nothing after it is smaller. *)
Lemma first_min_split (l : list A) (m : A) :
  Forall (λ y, is_nan (key y) = false) l →
  first_min key l = Some m →
  ∃ l1 l2, l = l1 ++ m :: l2 ∧
    Forall (λ y, SFltb (key m) (key y) = true) l1 ∧
    Forall (λ y, SFltb (key y) (key m) = false) l2.
Proof.
  revert m. induction l as [|x l IH]; intros m Hnum; simpl; [done|].
  apply Forall_cons in Hnum as [Hx Hnum].
  destruct (first_min key l) as [m'|] eqn:Hm'.
  - destruct (IH m' Hnum eq_refl) as (l1 & l2 & -> & H1 & H2).
    assert (is_nan (key m') = false) as Hm'num.
    { rewrite Forall_forall in Hnum. apply Hnum. set_solver. }
    destruct (SFltb (key m') (key x)) eqn:Hlt; intros [= <-].
    + exists (x :: l1), l2. by repeat constructor.
    + exists [], (l1 ++ m' :: l2).
      split; [done|]. split; [constructor|].
      apply Forall_app. split.
      * eapply Forall_impl; [exact H1|]. intros y Hy; simpl in Hy.
        destruct (SFltb (key y) (key x)) eqn:Hyx; [|done].
        by rewrite (SFltb_trans _ _ _ Hy Hyx) in Hlt.
      * constructor; [done|].
        eapply Forall_impl; [exact H2|]. intros y Hy; simpl in Hy.
        by apply (SFltb_false_trans _ (key m')).
  - intros [= <-]. destruct l as [|y l]; simpl in Hm'.
    + exists [], []. by repeat constructor.
    + destruct (first_min key l); [destruct (SFltb _ _)|]; done.
Qed.

Lemma first_min_ext (key' : A → spec_float) (l : list A) :
  Forall (λ x, key x = key' x) l → first_min key l = first_min key' l.
Proof.
  induction 1 as [|x l Hx Hl IH]; simpl; [done|].
  rewrite <- IH. destruct (first_min key l) as [m|] eqn:Hm; [|done].
  assert (key m = key' m) as <-; [|by rewrite Hx].
  rewrite Forall_forall in Hl. by apply Hl, first_min_elem_of.
Qed.
End first_min.

Lemma first_min_fmap {A B} (f : A → B) (key : B → spec_float) (l : list A) :
  first_min key (f <$> l) = f <$> first_min (key ∘ f) l.
Proof.
  induction l as [|x l IH]; [done|]. rewrite fmap_cons.
  cbn [first_min]. rewrite IH.
  destruct (first_min (key ∘ f) l) as [m|]; simpl; [|done].
  by destruct (SFltb _ _).
Qed.

Lemma valuation_unmark (s : Seed) (b : bool) :
  get_valuation (set_favored b s) = get_valuation s.
Proof. done. Qed.

Lemma same_seeds_lookup (q q' : list Seed) (i : nat) (s' : Seed) :
  same_seeds q q' → q' !! i = Some s' →
  ∃ s, q !! i = Some s ∧ s' = set_favored (favored s') s.
Proof.
  intros Hq Hi. assert ((unmark_favored <$> q) !! i = Some (unmark_favored s')) as H.
  { rewrite <- Hq, list_lookup_fmap, Hi. done. }
  rewrite list_lookup_fmap in H. destruct (q !! i) as [s|]; [|done].
  exists s. split; [done|]. injection H as H.
  destruct s, s'; unfold unmark_favored, set_favored in *; simpl in *. congruence.
Qed.

Lemma same_seeds_length (q q' : list Seed) : same_seeds q q' → length q' = length q.
Proof. intros H. by rewrite <- (length_fmap unmark_favored q'), H, length_fmap. Qed.

Lemma same_seeds_valuation (q q' : list Seed) (p : nat) :
  same_seeds q q' → valuation_at q' p = valuation_at q p.
Proof.
  intros Hq. unfold valuation_at.
  destruct (q' !! p) as [s'|] eqn:Hp.
  - destruct (same_seeds_lookup _ _ _ _ Hq Hp) as (s & -> & ->). done.
  - apply lookup_ge_None in Hp. rewrite (same_seeds_length _ _ Hq) in Hp.
    apply lookup_ge_None in Hp. by rewrite Hp.
Qed.

Lemma same_seeds_insert (q q' : list Seed) (p : nat) (s' : Seed) (b : bool) :
  same_seeds q q' → q' !! p = Some s' →
  same_seeds q (<[p := set_favored b s']> q').
Proof.
  intros Hq Hp. unfold same_seeds in *. rewrite list_fmap_insert.
  rewrite <- Hq. apply list_insert_id. rewrite list_lookup_fmap, Hp. done.
Qed.

(** The references collected by the comprehension. *)
Lemma mapM_references (q : list Seed) (ids : list nat) :
  (∀ i, i ∈ ids → i < length q) →
  ∃ refs, mapM (λ id, (λ s, (id, s)) <$> q !! id) ids = Some refs ∧
    refs.*1 = ids ∧ Forall (λ r, q !! r.1 = Some r.2) refs.
Proof.
  intros Hv.
  assert (∃ refs, Forall2 (λ id r, (λ s, (id, s)) <$> q !! id = Some r) ids refs
            ∧ refs.*1 = ids ∧ Forall (λ r, q !! r.1 = Some r.2) refs)
    as (refs & H2 & Hfst & Hall).
  { induction ids as [|i ids IH].
    - exists []. by repeat constructor.
    - destruct IH as (refs & Hrefs & Hfst & Hall); [set_solver|].
      destruct (lookup_lt_is_Some_2 q i) as [s Hs]; [apply Hv; set_solver|].
      exists ((i, s) :: refs). split; [|split].
      + constructor; [by rewrite Hs|done].
      + rewrite fmap_cons, Hfst. done.
      + by constructor. }
  exists refs. split; [by apply mapM_Some_2|done].
Qed.

Lemma mark_edge_pick (q : list Seed) (ids : list nat) :
  ids ≠ [] → (∀ i, i ∈ ids → i < length q) →
  ∃ p s, pick q ids = Some p ∧ q !! p = Some s ∧
    mark_edge q ids = Some (<[p := mark_favored s]> q).
Proof.
  intros Hne Hv.
  destruct (mapM_references q ids Hv) as (refs & Hrefs & Hfst & Hall).
  unfold mark_edge. rewrite Hrefs. simpl.
  pose proof (head_sort_by_key (λ r : nat * Seed, get_valuation r.2) refs) as Hhd.
  assert (first_min (λ r : nat * Seed, get_valuation r.2) refs
          = first_min (valuation_at q ∘ fst) refs) as Hext.
  { apply first_min_ext. eapply Forall_impl; [exact Hall|].
    intros [i s] Hi; simpl in *. unfold valuation_at. by rewrite Hi. }
  assert (pick q ids = fst <$> first_min (valuation_at q ∘ fst) refs) as Hpick.
  { unfold pick. rewrite <- Hfst. apply first_min_fmap. }
  destruct (first_min_is_Some (valuation_at q) ids Hne) as [p Hp].
  fold (pick q ids) in Hp. rewrite Hp in Hpick.
  rewrite <- Hext in Hpick. rewrite <- Hhd in Hpick.
  destruct (sort_by_key _ refs) as [|[p' s] rest] eqn:Hsort; [done|].
  simpl in Hpick. injection Hpick as ->.
  exists p', s. split; [done|]. split; [|done].
  assert ((p', s) ∈ refs) as Hin.
  { simpl in Hhd. symmetry in Hhd. by apply first_min_elem_of in Hhd. }
  rewrite Forall_forall in Hall. by apply (Hall (p', s)).
Qed.

Lemma ids_are_positions_lookup (q : list Seed) (i : nat) (s : Seed) :
  ids_are_positions q → q !! i = Some s → seed_id s = i.
Proof.
  intros Hq Hi. assert ((seed_id <$> q) !! i = Some (seed_id s)) as H.
  { by rewrite list_lookup_fmap, Hi. }
  rewrite Hq in H. apply lookup_seq in H. lia.
Qed.

Lemma pick_same_seeds (q q' : list Seed) (ids : list nat) :
  same_seeds q q' → pick q' ids = pick q ids.
Proof.
  intros Hq. apply first_min_ext, Forall_forall. intros p _.
  by apply same_seeds_valuation.
Qed.

(** What a pass computes: the flags are reset, then exactly the picked
    position of every edge is marked; nothing else of a seed changes. *)
Lemma update_favored_seeds_pick (q : list Seed) (index : gmap nat (list nat)) :
  index_valid q index →
  map_Forall (λ _ ids, ids ≠ []) index →
  ∃ q', update_favored_seeds q index = Some q' ∧ same_seeds q q' ∧
    ∀ i s', q' !! i = Some s' →
      (favored s' = true ↔ ∃ e ids, index !! e = Some ids ∧ pick q ids = Some i).
Proof.
  unfold update_favored_seeds, index_valid.
  apply (map_fold_weak_ind (λ r m,
    map_Forall (λ _ ids, Forall (λ i, i < length q) ids) m →
    map_Forall (λ _ ids, ids ≠ []) m →
    ∃ q', r = Some q' ∧ same_seeds q q' ∧
      ∀ i s', q' !! i = Some s' →
        (favored s' = true ↔ ∃ e ids, m !! e = Some ids ∧ pick q ids = Some i))).
  - intros _ _. exists (unmark_favored <$> q). split; [done|]. split.
    + unfold same_seeds. rewrite <- list_fmap_compose. by apply list_fmap_ext.
    + intros i s'. rewrite list_lookup_fmap. intros Hs'.
      destruct (q !! i); simplify_eq/=. split; [done|].
      intros (e & ids & He & _). by rewrite lookup_empty in He.
  - intros e ids m r Hfresh IH Hvalid Hne.
    apply map_Forall_insert in Hvalid as [Hids Hvalid]; [|done].
    apply map_Forall_insert in Hne as [Hids_ne Hne]; [|done].
    destruct (IH Hvalid Hne) as (q' & -> & Hsame & Hflags). simpl.
    destruct (mark_edge_pick q' ids Hids_ne) as (p & s & Hp & Hs & ->).
    { intros i Hi. rewrite (same_seeds_length _ _ Hsame).
      rewrite Forall_forall in Hids. by apply Hids. }
    rewrite (pick_same_seeds _ _ _ Hsame) in Hp.
    eexists. split; [done|]. split; [by apply same_seeds_insert|].
    intros i s'. destruct (decide (i = p)) as [->|Hip].
    + rewrite list_lookup_insert_eq by (by eapply lookup_lt_Some).
      intros [= <-]. split; [|done]. intros _. exists e, ids.
      by rewrite lookup_insert_eq.
    + rewrite list_lookup_insert_ne by done. intros Hs'.
      rewrite (Hflags _ _ Hs'). split.
      * intros (e' & ids' & He' & Hpick). exists e', ids'. split; [|done].
        rewrite lookup_insert_ne; [done|]. intros ->. congruence.
      * intros (e' & ids' & He' & Hpick).
        apply lookup_insert_Some in He' as [[<- <-]|[_ He']]; [congruence|].
        by exists e', ids'.
Qed.

Lemma valuation_at_number (q : list Seed) (p : nat) :
  valuations_are_numbers q → p < length q → is_nan (valuation_at q p) = false.
Proof.
  intros Hnum Hp. destruct (lookup_lt_is_Some_2 q p Hp) as [s Hs].
  unfold valuation_at. rewrite Hs. simpl.
  unfold valuations_are_numbers in Hnum. rewrite Forall_forall in Hnum.
  specialize (Hnum s (list_elem_of_lookup_2 _ _ _ Hs)).
  unfold valuation_is_number in Hnum.
  apply andb_true_iff in Hnum as [_ Hnum]. by apply negb_true_iff in Hnum.
Qed.

Lemma pick_is_min_cover (q : list Seed) (ids : list nat) (p : nat) :
  ids_are_positions q → valuations_are_numbers q →
  Forall (λ i, i < length q) ids →
  StronglySorted le ids →
  pick q ids = Some p → min_cover q ids p.
Proof.
  intros Hpos Hnum Hvalid Hsorted Hpick.
  assert (Forall (λ i, is_nan (valuation_at q i) = false) ids) as Hnums.
  { eapply Forall_impl; [exact Hvalid|]. intros i Hi. by apply valuation_at_number. }
  destruct (first_min_split _ _ _ Hnums Hpick) as (l1 & l2 & -> & Hl1 & Hl2).
  assert (Forall (le p) l2) as Hle.
  { apply StronglySorted_app in Hsorted as (_ & _ & Hs).
    by apply StronglySorted_cons in Hs as [? _]. }
  rewrite Forall_forall in Hvalid, Hl1, Hl2, Hle.
  destruct (lookup_lt_is_Some_2 q p) as [s Hs]; [apply Hvalid; set_solver|].
  split; [set_solver|]. exists s. split; [done|].
  intros p' s' Hp' Hs'.
  assert (valuation_at q p = get_valuation s) as Hv by (unfold valuation_at; by rewrite Hs).
  assert (valuation_at q p' = get_valuation s') as Hv' by (unfold valuation_at; by rewrite Hs').
  rewrite (ids_are_positions_lookup _ _ _ Hpos Hs), (ids_are_positions_lookup _ _ _ Hpos Hs').
  assert (is_nan (get_valuation s) = false) as Hs_num.
  { rewrite <- Hv. apply valuation_at_number; [done|]. by eapply lookup_lt_Some. }
  assert (is_nan (get_valuation s') = false) as Hs'_num.
  { rewrite <- Hv'. apply valuation_at_number; [done|]. by eapply lookup_lt_Some. }
  apply elem_of_app in Hp' as [Hp'|Hp'].
  - left. rewrite <- Hv, <- Hv'. by apply Hl1.
  - apply elem_of_cons in Hp' as [->|Hp'].
    + right. simplify_eq. split; [|lia].
      apply SFltb_false_eqb; try done; apply SFltb_irrefl.
    + specialize (Hl2 _ Hp'). rewrite Hv, Hv' in Hl2.
      destruct (SFltb (get_valuation s) (get_valuation s')) eqn:Hlt; [by left|right].
      split; [by apply SFltb_false_eqb|]. by apply Hle.
Qed.

Lemma min_cover_unique (q : list Seed) (ids : list nat) (p p' : nat) :
  ids_are_positions q → min_cover q ids p → min_cover q ids p' → p = p'.
Proof.
  intros Hpos (Hin & s & Hs & Hmin) (Hin' & s' & Hs' & Hmin').
  pose proof (ids_are_positions_lookup _ _ _ Hpos Hs) as Hid.
  pose proof (ids_are_positions_lookup _ _ _ Hpos Hs') as Hid'.
  destruct (Hmin _ _ Hin' Hs') as [Hlt|[Heq Hle]];
    destruct (Hmin' _ _ Hin Hs) as [Hlt'|[Heq' Hle']].
  - exfalso. pose proof (SFltb_trans _ _ _ Hlt Hlt') as H.
    by rewrite SFltb_irrefl in H.
  - exfalso. apply SFeqb_not_ltb in Heq' as [_ Heq']. congruence.
  - exfalso. apply SFeqb_not_ltb in Heq as [_ Heq]. congruence.
  - lia.
Qed.

Lemma pick_iff_min_cover (q : list Seed) (ids : list nat) (p : nat) :
  ids_are_positions q → valuations_are_numbers q →
  Forall (λ i, i < length q) ids →
  ids ≠ [] → StronglySorted le ids →
  pick q ids = Some p ↔ min_cover q ids p.
Proof.
  intros Hpos Hnum Hvalid Hne Hsorted. split; [by apply pick_is_min_cover|].
  intros Hmin. destruct (first_min_is_Some (valuation_at q) ids Hne) as [p' Hp'].
  fold (pick q ids) in Hp'. rewrite Hp'. f_equal.
  eapply min_cover_unique; [done| |done]. by apply pick_is_min_cover.
Qed.

Lemma min_cover_same_seeds (q q' : list Seed) (ids : list nat) (p : nat) :
  same_seeds q q' → min_cover q ids p → min_cover q' ids p.
Proof.
  intros Hsame (Hin & s & Hs & Hmin). split; [done|].
  destruct (lookup_lt_is_Some_2 q' p) as [t Ht].
  { rewrite (same_seeds_length _ _ Hsame). by eapply lookup_lt_Some. }
  exists t. split; [done|]. intros p' t' Hp' Ht'.
  destruct (same_seeds_lookup _ _ _ _ Hsame Ht) as (s0 & Hs0 & ->).
  destruct (same_seeds_lookup _ _ _ _ Hsame Ht') as (s' & Hs' & ->).
  simplify_eq. rewrite !valuation_unmark. simpl. by eapply Hmin.
Qed.

(** The parts of the index hypotheses one edge needs. *)
Lemma index_entry (q : list Seed) (index : gmap nat (list nat)) e ids :
  index_valid q index → index_ascending index → index !! e = Some ids →
  Forall (λ i, i < length q) ids ∧ ids ≠ [] ∧ StronglySorted le ids.
Proof.
  intros Hv Ha He. specialize (Hv _ _ He). specialize (Ha _ _ He).
  simpl in *. tauto.
Qed.

Lemma index_ascending_nonempty (index : gmap nat (list nat)) :
  index_ascending index → map_Forall (λ _ ids, ids ≠ []) index.
Proof. intros Ha e ids He. by destruct (Ha _ _ He). Qed.

(** Closed side conditions over concrete maps are decided by evaluation. *)
Ltac by_evaluation :=
  repeat match goal with
  | |- index_valid _ _ => unfold index_valid
  | |- index_ascending _ => unfold index_ascending
  | |- valuations_are_numbers _ => unfold valuations_are_numbers
  end;
  apply (bool_decide_unpack _); vm_compute; exact I.

(** C5 (amended): when every seed's id is its queue position, every
    valuation (the float product exec_time * file_size) is a number, the
    index lists only valid ids and every list of the index is non-empty and
    in ascending order of id, a pass succeeds, changes nothing but the
    favored flags, and leaves favored exactly the seeds that have the least
    (valuation, id) among the seeds listed for some edge, whatever the
    flags were before. *)
Theorem update_favored_seeds_marks_minimal
    (q : list Seed) (index : gmap nat (list nat)) :
  ids_are_positions q → valuations_are_numbers q →
  index_valid q index → index_ascending index →
  ∃ q', update_favored_seeds q index = Some q' ∧ length q' = length q ∧
    ∀ i s, q !! i = Some s →
      ∃ b, q' !! i = Some (set_favored b s) ∧
        (b = true ↔ ∃ e ids, index !! e = Some ids ∧ min_cover q ids i).
Proof.
  intros Hpos Hnum Hvalid Hasc.
  destruct (update_favored_seeds_pick q index Hvalid
              (index_ascending_nonempty _ Hasc)) as (q' & Hq' & Hsame & Hflags).
  exists q'. split; [done|]. split; [by apply same_seeds_length|].
  intros i s Hs.
  destruct (lookup_lt_is_Some_2 q' i) as [s' Hs'].
  { rewrite (same_seeds_length _ _ Hsame). by eapply lookup_lt_Some. }
  destruct (same_seeds_lookup _ _ _ _ Hsame Hs') as (s0 & Hs0 & Heq).
  simplify_eq. exists (favored s'). split; [by rewrite Hs', Heq at 1|].
  rewrite (Hflags _ _ Hs'). split; intros (e & ids & He & Hp); exists e, ids;
    (split; [done|]);
    destruct (index_entry _ _ _ _ Hvalid Hasc He) as (? & ? & ?);
    by apply pick_iff_min_cover.
Qed.

Lemma update_favored_seeds_marks_minimal_witness :
  ∃ q', update_favored_seeds two_seed_queue two_seed_index = Some q' ∧
    length q' = length two_seed_queue ∧
    ∀ i s, two_seed_queue !! i = Some s →
      ∃ b, q' !! i = Some (set_favored b s) ∧
        (b = true ↔
           ∃ e ids, two_seed_index !! e = Some ids ∧ min_cover two_seed_queue ids i).
Proof.
  apply (update_favored_seeds_marks_minimal two_seed_queue two_seed_index).
  - reflexivity.
  - by_evaluation.
  - by_evaluation.
  - by_evaluation.
Defined.

(** C5, as stated, fails: with a list that names the higher id first, a
    tie in valuation goes to the seed listed first, not to the lowest id. *)
Lemma tie_goes_to_first_listed :
  ids_are_positions tie_queue ∧ index_valid tie_queue tie_index ∧
  tie_index !! 7 = Some [1; 0] ∧
  min_cover tie_queue [1; 0] 0 ∧
  (fmap (M := list) favored) <$> update_favored_seeds tie_queue tie_index
    = Some [false; true].
Proof.
  split; [reflexivity|]. split; [by_evaluation|]. split; [reflexivity|].
  split; [|vm_compute; reflexivity].
  split; [set_solver|]. eexists. split; [reflexivity|].
  intros p' s' Hp' Hs'. right.
  apply elem_of_cons in Hp' as [->|Hp']; [|apply list_elem_of_singleton in Hp' as ->];
    simpl in Hs'; simplify_eq; (split; [vm_compute; reflexivity|simpl; lia]).
Qed.

(** The valuation is the rounded product: 3 + 2^-50 and 3 + 3 * 2^-52
    round to the same float, the tie goes to the seed listed first, and
    that is the seed of least (valuation, id). *)
Example rounded_tie_goes_to_lowest_id :
  get_valuation (example_seed 0 [7] (3 + (1 # 2 ^ 50)) 1)
    = S754_finite false 6755399441055746 (-51) ∧
  get_valuation (example_seed 1 [7] (1 + (1 # 2 ^ 52)) 3)
    = S754_finite false 6755399441055746 (-51) ∧
  ids_are_positions rounded_tie_queue ∧
  valuations_are_numbers rounded_tie_queue ∧
  index_valid rounded_tie_queue rounded_tie_index ∧
  index_ascending rounded_tie_index ∧
  (fmap (M := list) favored) <$> update_favored_seeds rounded_tie_queue rounded_tie_index
    = Some [true; false].
Proof.
  split; [vm_compute; reflexivity|]. split; [vm_compute; reflexivity|].
  split; [reflexivity|]. split; [by_evaluation|]. split; [by_evaluation|].
  split; [by_evaluation|]. vm_compute; reflexivity.
Qed.

(** Conversions round to nearest, ties to even: a tenth is the float
    0x1.999999999999ap-4, 2^53 + 1 becomes 2^53, a time that is a float
    comes back unchanged, and what exceeds the largest float is infinite. *)
Example float_conversions :
  float_of_Q (1 # 10) = S754_finite false 7205759403792794 (-56) ∧
  float_of_int (2 ^ 53 + 1) = S754_finite false 4503599627370496 1 ∧
  float_of_int (2 ^ 53 + 3) = S754_finite false 4503599627370498 1 ∧
  float_of_Q (3 # 4) = S754_finite false 6755399441055744 (-53) ∧
  float_of_Q (3 # 2 ^ 1075) = S754_finite false 2 (-1074) ∧
  float_of_Q (2 ^ 1024) = S754_infinity false ∧
  get_valuation (example_seed 0 [] (1 # 100) 8)
    = S754_finite false 5764607523034235 (-56).
Proof. repeat split; vm_compute; reflexivity. Qed.

(** C3 (amended): when every seed's id is its queue position, every
    valuation (the float product exec_time * file_size) is a number, the
    index lists only valid ids and every list of the index is non-empty and
    in ascending order of id, then after a pass every edge of the index has
    a favored covering seed, namely the one of least (valuation, id) among
    its covering seeds; any further favored seed among them is the least
    one of another edge. *)
Theorem favored_cover_of_every_edge
    (q : list Seed) (index : gmap nat (list nat)) :
  ids_are_positions q → valuations_are_numbers q →
  index_valid q index → index_ascending index →
  ∃ q', update_favored_seeds q index = Some q' ∧
    ∀ e ids, index !! e = Some ids →
      ∃ p s', min_cover q' ids p ∧ q' !! p = Some s' ∧ favored s' = true ∧
        ∀ j t', j ∈ ids → q' !! j = Some t' → favored t' = true → j ≠ p →
          ∃ e' ids', e' ≠ e ∧ index !! e' = Some ids' ∧ min_cover q' ids' j.
Proof.
  intros Hpos Hnum Hvalid Hasc.
  destruct (update_favored_seeds_pick q index Hvalid
              (index_ascending_nonempty _ Hasc)) as (q' & Hq' & Hsame & Hflags).
  exists q'. split; [done|]. intros e ids He.
  destruct (index_entry _ _ _ _ Hvalid Hasc He) as (Hv & Hne & Hsorted).
  destruct (first_min_is_Some (valuation_at q) ids Hne) as [p Hp].
  fold (pick q ids) in Hp.
  pose proof (pick_is_min_cover _ _ _ Hpos Hnum Hv Hsorted Hp) as Hmin.
  destruct (lookup_lt_is_Some_2 q' p) as [s' Hs'].
  { rewrite (same_seeds_length _ _ Hsame).
    destruct Hmin as (_ & s & Hs & _). by eapply lookup_lt_Some. }
  exists p, s'. split; [by eapply min_cover_same_seeds|]. split; [done|].
  split; [apply (Hflags _ _ Hs'); eauto|].
  intros j t' Hj Ht' Hfav Hjp.
  apply (Hflags _ _ Ht') in Hfav as (e' & ids' & He' & Hp').
  exists e', ids'. split; [intros ->; congruence|]. split; [done|].
  destruct (index_entry _ _ _ _ Hvalid Hasc He') as (? & ? & ?).
  eapply min_cover_same_seeds; [done|]. by apply pick_is_min_cover.
Qed.

Lemma favored_cover_of_every_edge_witness :
  ∃ q', update_favored_seeds two_seed_queue two_seed_index = Some q' ∧
    ∀ e ids, two_seed_index !! e = Some ids →
      ∃ p s', min_cover q' ids p ∧ q' !! p = Some s' ∧ favored s' = true ∧
        ∀ j t', j ∈ ids → q' !! j = Some t' → favored t' = true → j ≠ p →
          ∃ e' ids', e' ≠ e ∧ two_seed_index !! e' = Some ids' ∧
            min_cover q' ids' j.
Proof.
  apply (favored_cover_of_every_edge two_seed_queue two_seed_index).
  - reflexivity.
  - by_evaluation.
  - by_evaluation.
  - by_evaluation.
Defined.

(** C3, as stated, fails: both seeds cover edge 1 and both end the pass
    favored, seed 1 because it alone covers edge 3. *)
Lemma two_favored_seeds_on_one_edge :
  ids_are_positions two_seed_queue ∧ index_valid two_seed_queue two_seed_index ∧
  index_ascending two_seed_index ∧
  two_seed_index !! 1 = Some [0; 1] ∧
  ∃ q', update_favored_seeds two_seed_queue two_seed_index = Some q' ∧
    favored <$> q' !! 0 = Some true ∧ favored <$> q' !! 1 = Some true ∧
    ¬ (∃ p, ∀ j, j ∈ [0; 1] ∧ favored <$> q' !! j = Some true ↔ j = p).
Proof.
  split; [reflexivity|]. split; [by_evaluation|]. split; [by_evaluation|].
  split; [reflexivity|].
  exists (mark_favored <$> two_seed_queue).
  split; [vm_compute; reflexivity|]. split; [reflexivity|]. split; [reflexivity|].
  intros [p Hp].
  assert (0 = p) as H0 by (apply Hp; split; [repeat constructor|reflexivity]).
  assert (1 = p) as H1 by (apply Hp; split; [repeat constructor|reflexivity]).
  lia.
Qed.

(** ** The index built by the fuzzing loop *)

(** A seed added with the queue length as id keeps the hypotheses of the
    favored pass: ids are positions, the index lists valid ids, in
    non-empty ascending lists. *)
Lemma ids_are_positions_snoc (q : list Seed) (s : Seed) :
  ids_are_positions q → seed_id s = length q → ids_are_positions (q ++ [s]).
Proof.
  unfold ids_are_positions. intros Hq Hs.
  rewrite fmap_app, length_app, Hq. simpl. rewrite Hs.
  by rewrite seq_app.
Qed.

Lemma index_edges_keeps_shape (q : list Seed) (s : Seed)
    (index : gmap nat (list nat)) (seed_coverage : gset nat) :
  index_valid q index → index_ascending index →
  index_valid (q ++ [s]) (index_edges seed_coverage (length q) index) ∧
  index_ascending (index_edges seed_coverage (length q) index).
Proof.
  intros Hvalid Hasc. unfold index_edges, index_valid, index_ascending.
  rewrite length_app. simpl.
  apply (set_fold_ind_L (λ r _,
    map_Forall (λ _ ids, Forall (λ i, i < length q + 1) ids) r ∧
    map_Forall (λ _ ids, ids ≠ [] ∧ StronglySorted le ids) r)).
  - split; [|done]. intros e ids He. specialize (Hvalid e ids He). simpl in *.
    eapply Forall_impl; [exact Hvalid|]. intros; simpl in *; lia.
  - intros edge X r _ [Hv Ha].
    assert (Forall (λ i, i < length q + 1) (default [] (r !! edge)) ∧
            StronglySorted le (default [] (r !! edge))) as [Hold Hsorted].
    { destruct (r !! edge) as [ids|] eqn:He; simpl.
      - split; [exact (Hv _ _ He)|]. by destruct (Ha _ _ He).
      - split; constructor. }
    split; apply map_Forall_insert_2; try done.
    + apply Forall_app. split; [done|]. constructor; [lia|constructor].
    + split; [by destruct (default [] (r !! edge))|].
      apply StronglySorted_app. split; [|split; [done|repeat constructor]].
      intros x1 x2 Hx1 ->%list_elem_of_singleton.
      rewrite Forall_forall in Hold. specialize (Hold _ Hx1). simpl in Hold. lia.
Qed.

(** ** The scheduler *)

Lemma bind_Some {A B} (m : M A) (f : A → M B) (w w' : World) (y : B) :
  (m ≫= f) w = Some (y, w') ↔ ∃ x w1, m w = Some (x, w1) ∧ f x w1 = Some (y, w').
Proof.
  unfold mbind, M_bind. destruct (m w) as [[x w1]|].
  - split; [eauto|]. by intros (? & ? & [= <- <-] & ?).
  - split; [done|]. by intros (? & ? & ? & ?).
Qed.

Lemma randint_Some (lo hi : Z) (w w' : World) (x : Z) :
  randint lo hi w = Some (x, w') →
  (lo ≤ x ≤ hi)%Z ∧ w' = set_pos (S (pos w)) w.
Proof.
  unfold randint. destruct (Z.ltb_spec hi lo); [done|]. intros [= <- <-].
  split; [|done].
  pose proof (Z.mod_pos_bound (tape w (pos w)) (hi - lo + 1)). lia.
Qed.

Lemma randint_total (lo hi : Z) (w : World) :
  (lo ≤ hi)%Z → ∃ x, randint lo hi w = Some (x, set_pos (S (pos w)) w) ∧ (lo ≤ x ≤ hi)%Z.
Proof.
  intros Hle. unfold randint. destruct (Z.ltb_spec hi lo); [lia|].
  eexists. split; [done|].
  pose proof (Z.mod_pos_bound (tape w (pos w)) (hi - lo + 1)). lia.
Qed.

Lemma random_choice_Some {A} (l : list A) (w w' : World) (x : A) :
  random_choice l w = Some (x, w') → x ∈ l ∧ w' = set_pos (S (pos w)) w.
Proof.
  destruct l as [|a l]; [done|]. unfold random_choice.
  intros (i & w1 & Hi & Hret)%bind_Some. injection Hret as <- <-.
  apply randint_Some in Hi as [Hi ->]. split; [|done].
  apply list_elem_of_In. apply (@nth_In _ (Z.to_nat i) (a :: l) a).
  simpl length in *. lia.
Qed.

Lemma random_choice_total {A} (l : list A) (w : World) :
  l ≠ [] → ∃ x, random_choice l w = Some (x, set_pos (S (pos w)) w) ∧ x ∈ l.
Proof.
  destruct l as [|a l]; [done|]. intros _.
  destruct (randint_total 0 (Z.of_nat (length (a :: l)) - 1) w) as (i & Hi & Hr).
  { simpl. lia. }
  exists (nth (Z.to_nat i) (a :: l) a). split.
  - unfold random_choice. apply bind_Some. eauto.
  - apply list_elem_of_In. apply (@nth_In _ (Z.to_nat i) (a :: l) a).
    simpl length in *. lia.
Qed.

(** The draw of the selected seed: favored with nine chances in ten. *)
Lemma choose_seed_Some (unused favs : list Seed) (w w' : World) (x : Seed) :
  favs ⊆ unused →
  match favs with
  | [] => random_choice unused
  | _ :: _ =>
      r ← random_random;
      if Qltb r (9 # 10) then random_choice favs else random_choice unused
  end w = Some (x, w') →
  x ∈ unused.
Proof.
  intros Hsub. destruct favs as [|f favs].
  - by intros [? _]%random_choice_Some.
  - intros (r & w1 & _ & Hx)%bind_Some. destruct (Qltb r (9 # 10)).
    + apply random_choice_Some in Hx as [? _]. by apply Hsub.
    + by apply random_choice_Some in Hx as [? _].
Qed.

Lemma choose_seed_total (unused favs : list Seed) (w : World) :
  unused ≠ [] →
  is_Some (match favs with
           | [] => random_choice unused
           | _ :: _ =>
               r ← random_random;
               if Qltb r (9 # 10) then random_choice favs
               else random_choice unused
           end w).
Proof.
  intros Hne. destruct favs as [|f favs].
  - destruct (random_choice_total unused w Hne) as (x & -> & _). eauto.
  - unfold mbind, M_bind, random_random.
    destruct (Qltb _ (9 # 10)).
    + edestruct (random_choice_total (f :: favs)) as (x & -> & _); [done|eauto].
    + edestruct (random_choice_total unused) as (x & -> & _); [done|eauto].
Qed.

(** One successful call. *)
Lemma select_next_seed_Some (seed_queue : list Seed) (used : gset nat)
    (count : nat) (w w' : World) r :
  seed_queue ≠ [] →
  select_next_seed seed_queue used count w = Some (r, w') →
  ∃ selected,
    r = (Some selected,
         {[ seed_id selected ]} ∪ (cycle_start seed_queue used count).1.1,
         (cycle_start seed_queue used count).1.2,
         (cycle_start seed_queue used count).2) ∧
    selected ∈ seed_queue ∧
    seed_id selected ∉ (cycle_start seed_queue used count).1.1.
Proof.
  intros Hne. unfold select_next_seed, cycle_start.
  destruct seed_queue as [|s0 q0]; [done|].
  set (queue := s0 :: q0).
  destruct (decide (count ≤ size used)) as [Hb|Hb]; simpl;
    intros (selected & w1 & Hsel & Hret)%bind_Some;
    injection Hret as <- <-; exists selected; (split; [done|]);
    apply (choose_seed_Some _ _ _ _ _ (list_subseteq_filter _ _)) in Hsel;
    apply list_elem_of_filter in Hsel as [? ?]; done.
Qed.

Lemma unused_seeds_nonempty (seed_queue : list Seed) (used : gset nat) :
  NoDup (seed_id <$> seed_queue) → size used < length seed_queue →
  filter (λ s, seed_id s ∉ used) seed_queue ≠ [].
Proof.
  intros Hnd Hsize Hnil.
  assert (list_to_set (seed_id <$> seed_queue) ⊆ used) as Hsub.
  { intros id Hid. apply elem_of_list_to_set, list_elem_of_fmap in Hid
      as (s & -> & Hs).
    destruct (decide (seed_id s ∈ used)) as [|Hout]; [done|].
    assert (s ∈ filter (λ s, seed_id s ∉ used) seed_queue) as Hin
      by (by apply list_elem_of_filter).
    rewrite Hnil in Hin. by apply not_elem_of_nil in Hin. }
  apply subseteq_size in Hsub. rewrite size_list_to_set in Hsub by done.
  rewrite length_fmap in Hsub. lia.
Qed.

(** A call returns whenever the count does not exceed the queue length. *)
Lemma select_next_seed_total (seed_queue : list Seed) (used : gset nat)
    (count : nat) (w : World) :
  seed_queue ≠ [] → NoDup (seed_id <$> seed_queue) →
  count ≤ length seed_queue →
  is_Some (select_next_seed seed_queue used count w).
Proof.
  intros Hne Hnd Hcount. unfold select_next_seed.
  destruct seed_queue as [|s0 q0]; [done|].
  set (queue := s0 :: q0) in *.
  assert (0 < length queue) as Hpos by (simpl; lia).
  assert (∀ (u : gset nat) (c : nat) (nc : bool), size u < length queue →
    is_Some ((selected_seed ←
                match filter (λ s, favored s = true)
                        (filter (λ s, seed_id s ∉ u) queue) with
                | [] => random_choice (filter (λ s, seed_id s ∉ u) queue)
                | _ :: _ =>
                    r ← random_random;
                    if Qltb r (9 # 10)
                    then random_choice
                           (filter (λ s, favored s = true)
                              (filter (λ s, seed_id s ∉ u) queue))
                    else random_choice (filter (λ s, seed_id s ∉ u) queue)
                end;
              mret (Some selected_seed, {[ seed_id selected_seed ]} ∪ u, c, nc)) w))
    as Hbody.
  { intros u c nc Hu.
    edestruct (choose_seed_total (filter (λ s, seed_id s ∉ u) queue))
      as [[x w1] Hx]; [by apply unused_seeds_nonempty|].
    unfold mbind at 1. unfold M_bind at 1. rewrite Hx. eauto. }
  destruct (decide (count ≤ size used)) as [Hb|Hb]; apply Hbody.
  - by rewrite size_empty.
  - lia.
Qed.

Lemma select_calls_count (seed_queue : list Seed) used0 count0 trace used count :
  seed_queue ≠ [] →
  select_calls seed_queue used0 count0 trace used count →
  count0 ≤ length seed_queue → count ≤ length seed_queue.
Proof.
  intros Hne. induction 1 as [|used0 count0 w sel used1 count1 nc w1 tr used2 count2 Hcall _ IH];
    [done|].
  intros Hcount. apply IH.
  destruct (select_next_seed_Some _ _ _ _ _ _ Hne Hcall) as (sel' & Hr & _).
  injection Hr as _ _ -> _. unfold cycle_start.
  destruct (decide _); simpl; lia.
Qed.

(** Within a cycle no id comes back; an id of the used set comes back only
    at or after a new-cycle signal. *)
Lemma select_calls_no_repeat (seed_queue : list Seed) used0 count0 trace used count :
  seed_queue ≠ [] →
  select_calls seed_queue used0 count0 trace used count →
  no_repeat_within_cycle trace ∧
  ∀ j id nc, trace !! j = Some (id, nc) → id ∈ used0 →
    ∃ k idk, k ≤ j ∧ trace !! k = Some (idk, true).
Proof.
  intros Hne.
  induction 1 as [|used0 count0 w sel used1 count1 nc w1 tr used2 count2
                    Hcall _ [IHrep IHused]].
  { split; [intros i j id nci ncj _ Hi _|intros j id nc Hi _];
      by rewrite lookup_nil in Hi. }
  destruct (select_next_seed_Some _ _ _ _ _ _ Hne Hcall) as (sel' & Hr & _ & Hfresh).
  injection Hr as <- -> -> ->.
  split.
  - intros [|i] [|j] id nci ncj Hij Hi Hj; try lia; simpl in *.
    + injection Hi as <- <-.
      destruct (IHused j (seed_id sel) ncj Hj) as (k & idk & Hk & Hidk);
        [set_solver|].
      exists (S k), idk. split; [lia|done].
    + destruct (IHrep i j id nci ncj) as (k & idk & Hk & Hidk); [lia|done..|].
      exists (S k), idk. split; [lia|done].
  - intros [|j] id ncj Hj Hid; simpl in *.
    + injection Hj as <- <-. exists 0, (seed_id sel). split; [done|].
      simpl. do 2 f_equal. unfold cycle_start in *.
      destruct (decide (count0 ≤ size used0)); simpl in *; done.
    + unfold cycle_start in *.
      destruct (decide (count0 ≤ size used0)); simpl in *.
      * exists 0, (seed_id sel). split; [lia|done].
      * destruct (IHused j id ncj Hj) as (k & idk & Hk & Hidk); [set_solver|].
        exists (S k), idk. split; [lia|done].
Qed.

(** C7: in any sequence of calls on a non-empty queue of seeds with
    distinct ids, no id is returned twice without a new-cycle signal in
    between; a call signals a new cycle exactly when the used set has
    reached the count, and then restarts from the empty set with the count
    set to the queue length; and the next call always returns when the
    first count did not exceed the queue length. *)
Theorem select_next_seed_cycles
    (seed_queue : list Seed) (used0 : gset nat) (count0 : nat)
    (trace : list (nat * bool)) (used : gset nat) (count : nat) :
  seed_queue ≠ [] → NoDup (seed_id <$> seed_queue) →
  select_calls seed_queue used0 count0 trace used count →
  no_repeat_within_cycle trace ∧
  (∀ w r w', select_next_seed seed_queue used count w = Some (r, w') →
     ∃ selected, selected ∈ seed_queue ∧
       if decide (count ≤ size used)
       then r = (Some selected, {[ seed_id selected ]}, length seed_queue, true)
       else r = (Some selected, {[ seed_id selected ]} ∪ used, count, false)
            ∧ seed_id selected ∉ used) ∧
  (count0 ≤ length seed_queue →
     ∀ w, is_Some (select_next_seed seed_queue used count w)).
Proof.
  intros Hne Hnd Hcalls. split; [|split].
  - by eapply select_calls_no_repeat.
  - intros w r w' Hcall.
    destruct (select_next_seed_Some _ _ _ _ _ _ Hne Hcall) as (sel & -> & Hin & Hfresh).
    exists sel. split; [done|]. unfold cycle_start in *.
    destruct (decide (count ≤ size used)); simpl in *.
    + by rewrite union_empty_r_L.
    + done.
  - intros Hcount w. apply select_next_seed_total; [done..|].
    by eapply select_calls_count.
Qed.

Lemma select_next_seed_cycles_witness :
  no_repeat_within_cycle [(0, false); (1, false); (0, true)] ∧
  (∃ selected w',
     select_next_seed two_seed_queue {[ 0 ]} 2 quiet_world
       = Some ((Some selected, {[ seed_id selected ]} ∪ {[ 0 ]}, 2, false), w') ∧
     selected ∈ two_seed_queue ∧ seed_id selected ∉ ({[ 0 ]} : gset nat)) ∧
  (∀ w, is_Some (select_next_seed two_seed_queue {[ 0 ]} 2 w)).
Proof.
  destruct (select_next_seed_cycles two_seed_queue ∅ 2
              [(0, false); (1, false); (0, true)] {[ 0 ]} 2)
    as (Hrepeat & Hcall & Htotal).
  - done.
  - apply (bool_decide_unpack _). vm_compute. exact I.
  - eapply (select_calls_cons _ _ _ quiet_world (example_seed 0 [1; 2] 1 10));
      [vm_compute; reflexivity|].
    eapply (select_calls_cons _ _ _ quiet_world (example_seed 1 [1; 3] 1 20));
      [vm_compute; reflexivity|].
    eapply (select_calls_cons _ _ _ quiet_world (example_seed 0 [1; 2] 1 10));
      [vm_compute; reflexivity|].
    apply select_calls_nil.
  - split; [exact Hrepeat|]. split; [|apply Htotal; simpl; lia].
    destruct (Htotal ltac:(simpl; lia) quiet_world) as [[r w'] Hr].
    destruct (Hcall quiet_world r w' Hr) as (selected & Hin & Hres).
    destruct (decide (2 ≤ size ({[ 0 ]} : gset nat))) as [Hsize|_].
    { rewrite size_singleton in Hsize. lia. }
    destruct Hres as [-> Hfresh]. by exists selected, w'.
Defined.

(** ** The main loop *)

(** C1, the code at a corpus whose first file crashes in the dry run: the
    only seed that enters the queue gets id 1 although it is the first one
    inserted, the favored pass then indexes the queue out of range when
    that seed covers an edge, and when it covers none the first seed added
    by the fuzzing loop gets id 1 again. *)
Theorem dry_run_skips_seed_ids :
  (∃ st w',
     dry_run example_conf 0 ["a"; "b"] (initial_state example_conf [])
       (crash_first_world [0; 0; 0; 0; 0; 1]%Z []) = Some (st, w') ∧
     seed_id <$> seed_queue st = [1] ∧
     update_favored_seeds (seed_queue st) (edge_to_seeds st) = None) ∧
  (∃ st w',
     run_fuzzing example_conf [] ["a"; "b"] 1
       (crash_first_world [] [0; 0; 1]%Z) = Some (st, w') ∧
     seed_id <$> seed_queue st = [1; 1]).
Proof.
  split; do 2 eexists; (split; [vm_compute; reflexivity|]).
  - split; vm_compute; reflexivity.
  - vm_compute; reflexivity.
Qed.

(** C2, the code on a corpus of one seed and a target that always exits
    normally: after the 101 runs of the first budget the bandit has counted
    no use when the coverage never changes, and one use with reward 0 when
    the first mutated input discovers a new edge. *)
Theorem bandit_misses_runs :
  (∃ st w',
     run_fuzzing example_conf [] ["seed"] 1 (one_seed_world [1]%Z [1]%Z)
       = Some (st, w') ∧
     exec_count st = 102%Z ∧ length (seed_queue st) = 1 ∧
     MutationStrategy.havoc_uses (mutation_strategy st) = 0%Z ∧
     MutationStrategy.splice_uses (mutation_strategy st) = 0%Z) ∧
  (∃ st w',
     run_fuzzing example_conf [] ["seed"] 1 (one_seed_world [1]%Z [1; 0; 1]%Z)
       = Some (st, w') ∧
     exec_count st = 102%Z ∧ length (seed_queue st) = 2 ∧
     size (global_coverage st) = 2 ∧
     MutationStrategy.havoc_uses (mutation_strategy st) = 1%Z ∧
     MutationStrategy.splice_uses (mutation_strategy st) = 0%Z ∧
     MutationStrategy.havoc_rewards (mutation_strategy st) = 0%Z ∧
     MutationStrategy.splice_rewards (mutation_strategy st) = 0%Z).
Proof.
  split; do 2 eexists; (split; [vm_compute; reflexivity|]);
    repeat split; vm_compute; reflexivity.
Qed.

(** The reward passed on new coverage is the size of an empty set. *)
Lemma reward_after_merge (global_coverage seed_coverage : gset nat) :
  size (seed_coverage ∖ (global_coverage ∪ seed_coverage)) = 0.
Proof.
  apply size_empty_iff. intros x.
  rewrite elem_of_difference, elem_of_union, elem_of_empty. tauto.
Qed.

Lemma check_crash_timeout_value (w : World) :
  check_crash 9 w
  = Some (true, set_stdout (stdout w ++ [MsgFoundCrash "SIGKILL" 9]) w).
Proof. reflexivity. Qed.

(** C6: a run that returns the timeout value 9 is skipped before the crash
    test, in the dry run and in the fuzzing loop: apart from the execution
    itself the round only prints its timeout line (the line that
    [check_crash] prints for 9 is absent), writes no file, adds no seed
    and leaves the bandit alone, although [check_crash] answers [True]
    on 9. *)
Theorem timeout_run_is_skipped (cf : Conf) (st : FuzzState) (w : World) :
  (∀ i seed_file w1,
     copyfile (path_join (queue_folder cf) seed_file) (current_input cf) w
       = Some (tt, w1) →
     rr_status (next_run cf w1) = 9%Z →
     ∃ w', dry_run_one cf i seed_file st w = Some (st, w') ∧
       fs w' = fs w1 ∧
       stdout w' = stdout w1 ++ [MsgDryRunTimeout seed_file]) ∧
  (∀ selected_seed operator w1,
     choose_and_mutate selected_seed st w = Some (operator, w1) →
     rr_status (next_run cf w1) = 9%Z →
     ∃ st' w', fuzz_one cf selected_seed st w = Some (st', w') ∧
       fs w' = fs w1 ∧ stdout w' = stdout w1 ++ [MsgTimeout] ∧
       seed_queue st' = seed_queue st ∧
       edge_to_seeds st' = edge_to_seeds st ∧
       global_coverage st' = global_coverage st ∧
       mutation_strategy st' = mutation_strategy st) ∧
  (fst <$> check_crash 9 w = Some true ∧
   snd <$> check_crash 9 w
     = Some (set_stdout (stdout w ++ [MsgFoundCrash "SIGKILL" 9]) w)).
Proof.
  split; [|split].
  - intros i seed_file w1 Hcopy Htimeout.
    unfold dry_run_one. unfold mbind at 1, M_bind at 1. rewrite Hcopy.
    unfold mbind at 1, M_bind at 1, run_target. rewrite Htimeout.
    eexists. split; [reflexivity|]. done.
  - intros selected_seed operator w1 Hmut Htimeout.
    unfold fuzz_one. unfold mbind at 1, M_bind at 1. rewrite Hmut.
    unfold mbind at 1, M_bind at 1, run_target. rewrite Htimeout.
    do 2 eexists. split; [reflexivity|]. done.
  - by rewrite check_crash_timeout_value.
Qed.

Lemma timeout_run_is_skipped_witness :
  (∃ w', dry_run_one example_conf 0 "seed" (initial_state example_conf [])
           timeout_world = Some (initial_state example_conf [], w') ∧
     stdout w' = [MsgDryRunTimeout "seed"]) ∧
  (∃ st' w', fuzz_one example_conf
               one_seed (initial_state example_conf [])
               timeout_world = Some (st', w') ∧
     stdout w' = [MsgTimeout] ∧ seed_queue st' = []).
Proof.
  destruct (timeout_run_is_skipped example_conf (initial_state example_conf [])
              timeout_world) as (Hdry & Hfuzz & _).
  split.
  - edestruct (Hdry 0 "seed") as (w' & Hrun & _ & Hout);
      [vm_compute; reflexivity|vm_compute; reflexivity|].
    exists w'. split; [exact Hrun|exact Hout].
  - edestruct (Hfuzz one_seed) as (st' & w' & Hrun & _ & Hout & Hq & _);
      [vm_compute; reflexivity|vm_compute; reflexivity|].
    exists st', w'. split; [exact Hrun|]. split; [exact Hout|exact Hq].
Defined.

(** ** The mutators *)

Lemma returns_longer_ret (data data' : list Z) :
  length data ≤ length data' → returns_longer data (mret data').
Proof. intros Hlen w. by exists data', w. Qed.

Lemma returns_longer_option (data data' : list Z) (o : option (list Z)) :
  o = Some data' → length data ≤ length data' →
  returns_longer data (lift_option o).
Proof. intros -> Hlen w. by exists data', w. Qed.

Lemma returns_longer_randint (data : list Z) (lo hi : Z) (f : Z → M (list Z)) :
  (lo ≤ hi)%Z →
  (∀ x, (lo ≤ x ≤ hi)%Z → returns_longer data (f x)) →
  returns_longer data (randint lo hi ≫= f).
Proof.
  intros Hle Hf w. destruct (randint_total lo hi w Hle) as (x & Hx & Hr).
  destruct (Hf x Hr (set_pos (S (pos w)) w)) as (data' & w' & Hrun & Hlen & Hfs).
  exists data', w'. split; [|done]. unfold mbind, M_bind. by rewrite Hx.
Qed.

Lemma returns_longer_choice {A} (data : list Z) (l : list A) (f : A → M (list Z)) :
  l ≠ [] →
  (∀ x, x ∈ l → returns_longer data (f x)) →
  returns_longer data (random_choice l ≫= f).
Proof.
  intros Hne Hf w. destruct (random_choice_total l w Hne) as (x & Hx & Hin).
  destruct (Hf x Hin (set_pos (S (pos w)) w)) as (data' & w' & Hrun & Hlen & Hfs).
  exists data', w'. split; [|done]. unfold mbind, M_bind. by rewrite Hx.
Qed.

Lemma returns_longer_bind (data : list Z) (m : M (list Z)) (f : list Z → M (list Z)) :
  returns_longer data m →
  (∀ data', length data ≤ length data' → returns_longer data' (f data')) →
  returns_longer data (m ≫= f).
Proof.
  intros Hm Hf w. destruct (Hm w) as (d1 & w1 & Hrun1 & Hlen1 & Hfs1).
  destruct (Hf d1 Hlen1 w1) as (d2 & w2 & Hrun2 & Hlen2 & Hfs2).
  exists d2, w2. split; [|split; [lia|congruence]].
  unfold mbind, M_bind. by rewrite Hrun1.
Qed.

Lemma length_le_bytes (size : nat) (value : Z) : length (le_bytes size value) = size.
Proof. revert value. induction size as [|k IH]; intros v; simpl; [done|]. by rewrite IH. Qed.

Lemma pack_into_Some (size : nat) (data : list Z) (idx : nat) (value : Z) :
  (- 2 ^ (8 * Z.of_nat size - 1) ≤ value < 2 ^ (8 * Z.of_nat size - 1))%Z →
  idx + size ≤ length data →
  ∃ data', pack_into size data idx value = Some data' ∧ length data' = length data.
Proof.
  intros Hrange Hfit. unfold pack_into.
  rewrite !bool_decide_eq_true_2 by done. simpl. eexists. split; [done|].
  rewrite !length_app, length_take, length_le_bytes, length_drop. lia.
Qed.

Lemma pack_into_length (size : nat) (data data' : list Z) (idx : nat) (value : Z) :
  pack_into size data idx value = Some data' → length data' = length data.
Proof.
  unfold pack_into. case_bool_decide; [|done]. case_bool_decide; [|done].
  simpl. intros [= <-].
  rewrite !length_app, length_take, length_le_bytes, length_drop. lia.
Qed.

(** Case analysis on membership in a literal list. *)
Ltac list_cases H :=
  set_unfold in H; destruct_or! H; simplify_eq; try done.

Lemma bit_flip_returns (data : list Z) :
  1 ≤ length data → returns_longer data (HavocMutator.bit_flip_mutation data).
Proof.
  intros Hlen. unfold HavocMutator.bit_flip_mutation.
  apply returns_longer_randint; [lia|]. intros idx Hidx.
  apply returns_longer_randint; [lia|]. intros bit_pos _.
  assert (Z.to_nat idx < length data) as Hlt by lia.
  destruct (lookup_lt_is_Some_2 data (Z.to_nat idx) Hlt) as [b ->].
  apply returns_longer_ret. by rewrite length_insert.
Qed.

Lemma integer_mutation_returns (data : list Z) :
  returns_longer data (HavocMutator.integer_mutation data).
Proof.
  unfold HavocMutator.integer_mutation.
  apply returns_longer_choice; [done|]. intros [[size lo] hi] Hin.
  destruct (Z.ltb_spec (Z.of_nat (length data)) size);
    [by apply returns_longer_ret|].
  apply returns_longer_randint; [lia|]. intros idx Hidx.
  assert (Z.to_nat idx + Z.to_nat size ≤ length data) as Hfit.
  { list_cases Hin; lia. }
  assert ((lo ≤ hi)%Z ∧ lo = (- 2 ^ (8 * Z.of_nat (Z.to_nat size) - 1))%Z
          ∧ hi = (2 ^ (8 * Z.of_nat (Z.to_nat size) - 1) - 1)%Z) as (? & Hlo & Hhi).
  { list_cases Hin; done. }
  apply returns_longer_randint; [done|]. intros value Hvalue.
  destruct (pack_into_Some (Z.to_nat size) data (Z.to_nat idx) value)
    as (data' & Hpack & Hlen); [lia|done|].
  eapply returns_longer_option; [done|lia].
Qed.

(** When [struct.error] is caught, the value packed instead fits. *)
Lemma pack_or_fallback_returns (data : list Z) (size idx : nat) (value fallback : Z) :
  idx + size ≤ length data →
  (- 2 ^ (8 * Z.of_nat size - 1) ≤ fallback < 2 ^ (8 * Z.of_nat size - 1))%Z →
  returns_longer data
    match pack_into size data idx value with
    | Some data' => mret data'
    | None => lift_option (pack_into size data idx fallback)
    end.
Proof.
  intros Hfit Hrange.
  destruct (pack_into size data idx value) as [data'|] eqn:Hpack.
  - apply returns_longer_ret. by rewrite (pack_into_length _ _ _ _ _ Hpack).
  - destruct (pack_into_Some size data idx fallback) as (data' & Hfb & Hlen);
      [done..|].
    eapply returns_longer_option; [done|lia].
Qed.

Lemma interesting_value_mutation_returns (data : list Z) :
  returns_longer data (HavocMutator.interesting_value_mutation data).
Proof.
  unfold HavocMutator.interesting_value_mutation.
  apply returns_longer_choice; [done|]. intros [size vals] Hin.
  destruct (Z.ltb_spec (Z.of_nat (length data)) size);
    [by apply returns_longer_ret|].
  apply returns_longer_randint; [lia|]. intros idx Hidx.
  assert (vals ≠ []) as Hvals by (list_cases Hin).
  apply returns_longer_choice; [done|]. intros value _.
  assert (Z.to_nat idx + Z.to_nat size ≤ length data) as Hfit
    by (list_cases Hin; lia).
  destruct (0 <? value)%Z;
    apply pack_or_fallback_returns; try done; list_cases Hin.
Qed.

Lemma chunk_replacement_mutation_returns (data : list Z) :
  returns_longer data (HavocMutator.chunk_replacement_mutation data).
Proof.
  unfold HavocMutator.chunk_replacement_mutation.
  destruct (Nat.ltb_spec (length data) 4); [by apply returns_longer_ret|].
  assert (2 ≤ Z.of_nat (length data) `div` 2)%Z as Hhalf
    by (apply Z.div_le_lower_bound; lia).
  assert (Z.of_nat (length data) `div` 2 ≤ Z.of_nat (length data))%Z
    by (apply Z.div_le_upper_bound; lia).
  apply returns_longer_randint; [lia|]. intros chunk_size Hchunk.
  apply returns_longer_randint; [lia|]. intros src_pos Hsrc.
  apply returns_longer_randint; [lia|]. intros dst_pos Hdst.
  apply returns_longer_ret. unfold assign_slice.
  rewrite !length_app, !length_take, !length_drop. lia.
Qed.

Lemma arithmetic_mutation_returns (data : list Z) :
  returns_longer data (HavocMutator.arithmetic_mutation data).
Proof.
  unfold HavocMutator.arithmetic_mutation.
  apply returns_longer_choice; [done|]. intros [[size lo] hi] Hin.
  destruct (Z.ltb_spec (Z.of_nat (length data)) size);
    [by apply returns_longer_ret|].
  apply returns_longer_randint; [lia|]. intros idx Hidx.
  assert (Z.to_nat idx + Z.to_nat size ≤ length data) as Hfit
    by (list_cases Hin; lia).
  unfold unpack_from. rewrite bool_decide_eq_true_2 by done.
  intros w. cbn [mbind M_bind lift_option]. revert w.
  apply returns_longer_randint; [list_cases Hin|]. intros delta _.
  destruct (0 <? delta)%Z;
    apply pack_or_fallback_returns; try done; list_cases Hin.
Qed.

Lemma dictionary_insert_mutation_returns (self : HavocMutator.t) (data : list Z) :
  returns_longer data (HavocMutator.dictionary_insert_mutation self data).
Proof.
  unfold HavocMutator.dictionary_insert_mutation.
  destruct (HavocMutator.dictionary self) as [|t0 ts] eqn:Hdict;
    [by apply returns_longer_ret|].
  apply returns_longer_choice; [done|]. intros token _.
  destruct (Nat.ltb_spec (length data) 2).
  - apply returns_longer_ret. rewrite length_app. lia.
  - apply returns_longer_randint; [lia|]. intros pos Hpos.
    apply returns_longer_ret. unfold assign_slice.
    rewrite !length_app, length_take, length_drop. lia.
Qed.

Lemma dictionary_replace_mutation_returns (self : HavocMutator.t) (data : list Z) :
  returns_longer data (HavocMutator.dictionary_replace_mutation self data).
Proof.
  unfold HavocMutator.dictionary_replace_mutation.
  destruct (HavocMutator.dictionary self) as [|t0 ts] eqn:Hdict;
    [by apply returns_longer_ret|].
  destruct (Nat.ltb_spec (length data) 2); [by apply returns_longer_ret|].
  apply returns_longer_choice; [done|]. intros token _.
  destruct (Nat.ltb_spec (length data) (length token));
    [by apply returns_longer_ret|].
  apply returns_longer_randint; [lia|]. intros pos Hpos.
  apply returns_longer_ret. unfold assign_slice.
  rewrite !length_app, length_take, length_drop. lia.
Qed.

Lemma mutate_once_returns (self : HavocMutator.t) (data : list Z) :
  1 ≤ length data → returns_longer data (HavocMutator.mutate_once self data).
Proof.
  intros Hlen. unfold HavocMutator.mutate_once.
  apply returns_longer_randint; [lia|]. intros choice _.
  repeat case_match;
    auto using bit_flip_returns, integer_mutation_returns,
      interesting_value_mutation_returns, chunk_replacement_mutation_returns,
      dictionary_insert_mutation_returns, dictionary_replace_mutation_returns,
      arithmetic_mutation_returns.
Qed.

Lemma mutate_loop_returns (self : HavocMutator.t) (n : nat) (data : list Z) :
  1 ≤ length data → returns_longer data (HavocMutator.mutate_loop self n data).
Proof.
  revert data. induction n as [|n IH]; intros data Hlen; simpl.
  - by apply returns_longer_ret.
  - apply returns_longer_bind; [by apply mutate_once_returns|].
    intros data' Hlen'. apply IH. lia.
Qed.

(** The havoc of a non-empty buffer always returns, with a buffer that is
    not shorter. *)
Lemma havoc_returns (self : HavocMutator.t) (data : list Z) :
  1 ≤ length data → returns_longer data (HavocMutator.havoc self data).
Proof.
  intros Hlen. unfold HavocMutator.havoc.
  apply returns_longer_randint; [lia|]. intros n _.
  by apply mutate_loop_returns.
Qed.

Lemma read_file_Some (p : string) (w w' : World) (data : list Z) :
  read_file p w = Some (data, w') ↔ fs w !! p = Some data ∧ w' = w.
Proof.
  unfold read_file. destruct (fs w !! p) as [d|].
  - split; [by intros [= -> ->]|by intros [[= ->] ->]].
  - split; [done|by intros [? _]].
Qed.

Lemma havoc_mutate_short (self : HavocMutator.t) (seed : Seed) (data : list Z)
    (w : World) :
  fs w !! path seed = Some data → length data < 8 →
  HavocMutator.mutate self seed w = Some (tt, w).
Proof.
  intros Hfile Hshort. unfold HavocMutator.mutate, mbind, M_bind, read_file.
  rewrite Hfile. by destruct (Nat.ltb_spec (length data) 8); [|lia].
Qed.

Lemma havoc_mutate_long (self : HavocMutator.t) (seed : Seed) (data : list Z)
    (w : World) :
  fs w !! path seed = Some data → 8 ≤ length data →
  ∃ data' w1,
    HavocMutator.havoc self data w = Some (data', w1) ∧
    fs w1 = fs w ∧ length data ≤ length data' ∧
    HavocMutator.mutate self seed w
      = Some (tt, set_fs (<[current_input (HavocMutator.conf self) := data']> (fs w1)) w1).
Proof.
  intros Hfile Hlong.
  destruct (havoc_returns self data ltac:(lia) w) as (data' & w1 & Hrun & Hlen & Hfs).
  exists data', w1. repeat split; try done.
  unfold HavocMutator.mutate, mbind, M_bind, read_file. rewrite Hfile.
  destruct (Nat.ltb_spec (length data) 8); [lia|]. by rewrite Hrun.
Qed.

Lemma select_operator_Some (self : MutationStrategy.t) (w w' : World)
    (operator : Operator) :
  MutationStrategy.select_operator self w = Some (operator, w') →
  w' = set_pos (pos w') w.
Proof.
  unfold MutationStrategy.select_operator.
  intros (r & w1 & Hr & Hop)%bind_Some. injection Hr as <- <-.
  destruct (Qltb _ _).
  - by apply random_choice_Some in Hop as [_ ->].
  - by injection Hop as <- <-.
Qed.

(** What a splice leaves in the files when the seed is too short for
    havoc: nothing, or the spliced bytes in [current_input]. *)
Lemma splice_mutate_short (self : SpliceMutator.t) (seed : Seed)
    (seed_queue : list Seed) (data : list Z) (w w' : World) :
  fs w !! path seed = Some data → length data < 8 →
  path seed ≠ current_input (SpliceMutator.conf self) →
  SpliceMutator.mutate self seed seed_queue w = Some (tt, w') →
  fs w' = fs w ∨
  ∃ other data2 p1 p2,
    other ∈ seed_queue ∧ seed_id other ≠ seed_id seed ∧
    fs w !! path other = Some data2 ∧
    (1 ≤ p1 ≤ Z.of_nat (length data) - 2)%Z ∧
    (1 ≤ p2 ≤ Z.of_nat (length data2) - 2)%Z ∧
    fs w' = <[current_input (SpliceMutator.conf self) :=
                take (Z.to_nat p1) data ++ drop (Z.to_nat p2) data2]> (fs w).
Proof.
  intros Hfile Hshort Hpath. unfold SpliceMutator.mutate.
  destruct (length seed_queue <? 2)%nat.
  { rewrite (havoc_mutate_short _ _ _ _ Hfile Hshort). intros [= <-]. by left. }
  intros (other & wa & Hother & Hrest)%bind_Some.
  apply random_choice_Some in Hother as [Hin ->].
  apply list_elem_of_filter in Hin as [Hid Hin].
  apply bind_Some in Hrest as (data1 & wb & Hread1 & Hrest).
  apply read_file_Some in Hread1 as [Hdata1 ->]. simpl in Hdata1.
  assert (data1 = data) as -> by congruence.
  apply bind_Some in Hrest as (data2 & wb & Hread2 & Hrest).
  apply read_file_Some in Hread2 as [Hdata2 ->]. simpl in Hdata2.
  destruct ((length data <? 4)%nat || (length data2 <? 4)%nat).
  { rewrite (havoc_mutate_short _ _ data) in Hrest by done.
    injection Hrest as <-. by left. }
  apply bind_Some in Hrest as (p1 & wb & Hp1 & Hrest).
  apply randint_Some in Hp1 as [Hp1 ->].
  apply bind_Some in Hrest as (p2 & wb & Hp2 & Hrest).
  apply randint_Some in Hp2 as [Hp2 ->].
  apply bind_Some in Hrest as ([] & wb & Hwrite & Hrest).
  injection Hwrite as <-.
  rewrite (havoc_mutate_short _ _ data) in Hrest; [|by simpl; rewrite lookup_insert_ne|done].
  injection Hrest as <-. right. by exists other, data2, p1, p2.
Qed.

(** C10 (amended): when the selected seed's file has fewer than 8 bytes,
    the havoc mutator returns at once and changes nothing, [current_input]
    included; so a round of the budget that chose havoc executes the target
    on the bytes [current_input] already held.  A round that chose splice
    on a seed file other than [current_input] leaves the files as they
    were, or writes to [current_input] the spliced bytes [a[:p1] + b[p2:]]
    of the seed and a seed of another id, and nothing else: never a havoc
    mutation. *)
Theorem havoc_skips_short_seed
    (st : FuzzState) (seed : Seed) (data : list Z) (w : World) :
  fs w !! path seed = Some data → length data < 8 →
  (∀ self, HavocMutator.mutate self seed w = Some (tt, w)) ∧
  (∀ operator w1,
     choose_and_mutate seed st w = Some (operator, w1) →
     (operator = havoc →
        w1 = set_pos (pos w1) w ∧ ∀ cf, next_run cf w1 = next_run cf w) ∧
     (operator = splice →
        path seed ≠ splice_input st →
        fs w1 = fs w ∨
        ∃ other data2 p1 p2,
          other ∈ seed_queue st ∧ seed_id other ≠ seed_id seed ∧
          fs w !! path other = Some data2 ∧
          (1 ≤ p1 ≤ Z.of_nat (length data) - 2)%Z ∧
          (1 ≤ p2 ≤ Z.of_nat (length data2) - 2)%Z ∧
          fs w1 = <[splice_input st :=
                      take (Z.to_nat p1) data ++ drop (Z.to_nat p2) data2]>
                    (fs w))).
Proof.
  intros Hfile Hshort. split; [intros self; by eapply havoc_mutate_short|].
  intros operator w1. unfold choose_and_mutate.
  intros (op & wa & Hop & Hrest)%bind_Some.
  apply select_operator_Some in Hop.
  apply bind_Some in Hrest as ([] & wb & Hmut & Hret). injection Hret as -> <-.
  split.
  - intros ->. rewrite (havoc_mutate_short _ _ data) in Hmut;
      [|by rewrite Hop|done].
    injection Hmut as <-. split; [done|]. intros cf. by rewrite Hop.
  - intros -> Hpath. unfold splice_input in *.
    eapply splice_mutate_short in Hmut; [|by rewrite Hop|done..].
    rewrite Hop in Hmut. exact Hmut.
Qed.

Lemma havoc_skips_short_seed_witness :
  (∀ self, HavocMutator.mutate self (seed_a 3)
             (two_file_world [1; 2; 3]%Z [5; 6; 7; 8]%Z)
           = Some (tt, two_file_world [1; 2; 3]%Z [5; 6; 7; 8]%Z)) ∧
  (∃ w1,
     choose_and_mutate (seed_a 3) (initial_state example_conf [])
       (two_file_world [1; 2; 3]%Z [5; 6; 7; 8]%Z) = Some (havoc, w1) ∧
     ∀ cf, next_run cf w1
           = next_run cf (two_file_world [1; 2; 3]%Z [5; 6; 7; 8]%Z)).
Proof.
  destruct (havoc_skips_short_seed (initial_state example_conf []) (seed_a 3)
              [1; 2; 3]%Z (two_file_world [1; 2; 3]%Z [5; 6; 7; 8]%Z))
    as [Hmutate Hround]; [reflexivity|simpl; lia|].
  split; [exact Hmutate|].
  eexists. split; [vm_compute; reflexivity|].
  eapply Hround; [vm_compute; reflexivity|reflexivity].
Defined.

(** C10, as stated, fails: in a round that chose splice on a seed of four
    bytes, with a partner of four bytes, [current_input] does not keep its
    contents [9; 9]: it holds the spliced bytes [1; 6; 7; 8] when the round
    executes the target, although the havoc mutator called on the way wrote
    nothing. *)
Lemma splice_round_rewrites_current_input :
  fs (splice_draw_world [1; 2; 3; 4]%Z [5; 6; 7; 8]%Z) !! path (seed_a 4)
    = Some [1; 2; 3; 4]%Z ∧
  length [1; 2; 3; 4]%Z < 8 ∧
  fs (splice_draw_world [1; 2; 3; 4]%Z [5; 6; 7; 8]%Z) !! current_input example_conf
    = Some [9; 9]%Z ∧
  (∀ self w, fs w !! path (seed_a 4) = Some [1; 2; 3; 4]%Z →
     HavocMutator.mutate self (seed_a 4) w = Some (tt, w)) ∧
  ∃ w1,
    choose_and_mutate (seed_a 4) two_seed_state
      (splice_draw_world [1; 2; 3; 4]%Z [5; 6; 7; 8]%Z) = Some (splice, w1) ∧
    fs w1 !! current_input example_conf = Some [1; 6; 7; 8]%Z ∧
    next_run example_conf w1 = target w1 0 (Some [1; 6; 7; 8]%Z).
Proof.
  split; [reflexivity|]. split; [simpl; lia|]. split; [reflexivity|].
  split.
  { intros self w Hfile. unfold HavocMutator.mutate, read_file.
    unfold mbind, M_bind. by rewrite Hfile. }
  eexists. split; [vm_compute; reflexivity|].
  split; vm_compute; reflexivity.
Qed.

(** C4 (amended): with two seeds or more, a partner chosen among the
    seeds of another id and both files of 4 bytes or more, the splice
    mutator writes [a[:p1] + b[p2:]] to [current_input] with the split
    points in range and then calls havoc on the selected seed: if that
    seed's file has 8 bytes or more, [current_input] ends up holding a
    havoc of the seed's file; if it has 4 to 7 bytes, havoc writes nothing
    and [current_input] keeps the spliced bytes. *)
Theorem splice_then_havoc
    (cf : Conf) (dictionary : list (list Z)) (seed other : Seed)
    (seed_queue : list Seed) (data1 data2 : list Z) (w w0 : World) :
  2 ≤ length seed_queue →
  random_choice (filter (λ s, seed_id s ≠ seed_id seed) seed_queue) w
    = Some (other, w0) →
  fs w !! path seed = Some data1 → fs w !! path other = Some data2 →
  4 ≤ length data1 → 4 ≤ length data2 →
  path seed ≠ current_input cf →
  other ∈ seed_queue ∧ seed_id other ≠ seed_id seed ∧
  ∃ p1 p2 w1,
    (1 ≤ p1 ≤ Z.of_nat (length data1) - 2)%Z ∧
    (1 ≤ p2 ≤ Z.of_nat (length data2) - 2)%Z ∧
    fs w1 = fs w ∧
    let spliced := take (Z.to_nat p1) data1 ++ drop (Z.to_nat p2) data2 in
    let ws := set_fs (<[current_input cf := spliced]> (fs w)) w1 in
    SpliceMutator.mutate (SpliceMutator.init cf dictionary) seed seed_queue w
      = HavocMutator.mutate
          (SpliceMutator.havoc_mutator (SpliceMutator.init cf dictionary))
          seed ws ∧
    (length data1 < 8 →
       SpliceMutator.mutate (SpliceMutator.init cf dictionary) seed seed_queue w
         = Some (tt, ws)) ∧
    (8 ≤ length data1 →
       ∃ data' w2 w',
         HavocMutator.havoc
           (SpliceMutator.havoc_mutator (SpliceMutator.init cf dictionary))
           data1 ws = Some (data', w2) ∧
         SpliceMutator.mutate (SpliceMutator.init cf dictionary) seed seed_queue w
           = Some (tt, w') ∧
         fs w' = <[current_input cf := data']> (fs w)).
Proof.
  intros Hqueue Hother Hfile1 Hfile2 Hlen1 Hlen2 Hpath.
  pose proof Hother as Hchoice.
  apply random_choice_Some in Hother as [Hin ->].
  apply list_elem_of_filter in Hin as [Hid Hin].
  split; [done|]. split; [done|].
  set (wa := set_pos (S (pos w)) w) in *.
  destruct (randint_total 1 (Z.of_nat (length data1) - 2) wa)
    as (p1 & Hp1 & Hr1); [lia|].
  set (wb := set_pos (S (pos wa)) wa) in *.
  destruct (randint_total 1 (Z.of_nat (length data2) - 2) wb)
    as (p2 & Hp2 & Hr2); [lia|].
  set (wc := set_pos (S (pos wb)) wb) in *.
  exists p1, p2, wc. split; [done|]. split; [done|]. split; [done|].
  intros spliced ws.
  assert (SpliceMutator.mutate (SpliceMutator.init cf dictionary) seed seed_queue w
          = HavocMutator.mutate
              (SpliceMutator.havoc_mutator (SpliceMutator.init cf dictionary))
              seed ws) as Hsplice.
  { unfold SpliceMutator.mutate.
    destruct (Nat.ltb_spec (length seed_queue) 2); [lia|].
    unfold mbind at 1, M_bind at 1. rewrite Hchoice.
    unfold mbind at 1, M_bind at 1, read_file at 1. cbn [fs wa set_pos].
    rewrite Hfile1.
    unfold mbind at 1, M_bind at 1, read_file at 1. cbn [fs wa set_pos].
    rewrite Hfile2.
    destruct (Nat.ltb_spec (length data1) 4); [lia|].
    destruct (Nat.ltb_spec (length data2) 4); [lia|]. cbn [orb].
    unfold mbind at 1, M_bind at 1. rewrite Hp1.
    unfold mbind at 1, M_bind at 1. rewrite Hp2.
    reflexivity. }
  split; [done|].
  assert (fs ws !! path seed = Some data1) as Hfile1'.
  { subst ws. cbn [fs set_fs]. by rewrite lookup_insert_ne. }
  split.
  - intros Hshort. rewrite Hsplice. by eapply havoc_mutate_short.
  - intros Hlong.
    destruct (havoc_mutate_long
                (SpliceMutator.havoc_mutator (SpliceMutator.init cf dictionary))
                seed data1 ws Hfile1' Hlong)
      as (data' & w2 & Hhavoc & Hfs & _ & Hmut).
    eexists data', w2, _. split; [done|]. split; [by rewrite Hsplice|].
    cbn [fs set_fs]. rewrite Hfs. subst ws. cbn [fs set_fs].
    cbn [SpliceMutator.init SpliceMutator.havoc_mutator HavocMutator.conf].
    by rewrite insert_insert_eq.
Qed.

Lemma splice_then_havoc_witness :
  ∃ data' ws w2 w',
    HavocMutator.havoc
      (SpliceMutator.havoc_mutator (SpliceMutator.init example_conf []))
      [1; 2; 3; 4; 5; 6; 7; 8]%Z ws = Some (data', w2) ∧
    SpliceMutator.mutate (SpliceMutator.init example_conf [])
      (seed_a 8) [seed_a 8; seed_b 8]
      (two_file_world [1; 2; 3; 4; 5; 6; 7; 8]%Z [11; 12; 13; 14; 15; 16; 17; 18]%Z)
      = Some (tt, w') ∧
    fs w' !! "out/cur" = Some data'.
Proof.
  destruct (splice_then_havoc example_conf [] (seed_a 8) (seed_b 8)
              [seed_a 8; seed_b 8]
              [1; 2; 3; 4; 5; 6; 7; 8]%Z [11; 12; 13; 14; 15; 16; 17; 18]%Z
              (two_file_world [1; 2; 3; 4; 5; 6; 7; 8]%Z
                 [11; 12; 13; 14; 15; 16; 17; 18]%Z)
              (set_pos 1 (two_file_world [1; 2; 3; 4; 5; 6; 7; 8]%Z
                            [11; 12; 13; 14; 15; 16; 17; 18]%Z)))
    as (_ & _ & p1 & p2 & w1 & _ & _ & _ & _ & _ & Hlong).
  - simpl; lia.
  - vm_compute; reflexivity.
  - reflexivity.
  - reflexivity.
  - simpl; lia.
  - simpl; lia.
  - discriminate.
  - destruct Hlong as (data' & w2 & w' & Hhavoc & Hmut & Hfs); [simpl; lia|].
    eexists data', _, w2, w'. split; [exact Hhavoc|]. split; [exact Hmut|].
    rewrite Hfs. apply lookup_insert_eq.
Defined.

(** C4, as stated, fails: with two seeds of 4 bytes the splice is written
    and havoc, called on the selected seed, returns without writing, so
    [current_input] ends up holding the spliced bytes. *)
Lemma splice_survives_short_seed :
  length [seed_a 4; seed_b 4] = 2 ∧
  fs (two_file_world [1; 2; 3; 4]%Z [5; 6; 7; 8]%Z) !! path (seed_a 4)
    = Some [1; 2; 3; 4]%Z ∧
  fs (two_file_world [1; 2; 3; 4]%Z [5; 6; 7; 8]%Z) !! path (seed_b 4)
    = Some [5; 6; 7; 8]%Z ∧
  ∃ w', SpliceMutator.mutate (SpliceMutator.init example_conf [])
          (seed_a 4) [seed_a 4; seed_b 4]
          (two_file_world [1; 2; 3; 4]%Z [5; 6; 7; 8]%Z) = Some (tt, w') ∧
    fs w' !! "out/cur" = Some (take 1 [1; 2; 3; 4]%Z ++ drop 1 [5; 6; 7; 8]%Z) ∧
    HavocMutator.mutate
      (SpliceMutator.havoc_mutator (SpliceMutator.init example_conf []))
      (seed_a 4)
      (set_fs (<["out/cur" := take 1 [1; 2; 3; 4]%Z ++ drop 1 [5; 6; 7; 8]%Z]>
                 (fs (two_file_world [1; 2; 3; 4]%Z [5; 6; 7; 8]%Z)))
         (set_pos 3 (two_file_world [1; 2; 3; 4]%Z [5; 6; 7; 8]%Z)))
      = Some (tt, w').
Proof.
  split; [reflexivity|]. split; [reflexivity|]. split; [reflexivity|].
  eexists. split; [vm_compute; reflexivity|].
  split; vm_compute; reflexivity.
Qed.


(** * Further properties of the code *)

(** ** feedback.py: coverage *)

Lemma elem_of_nonzero_indexes (idx : nat) (raw_bitmap : list Z) (e : nat) :
  e ∈ nonzero_indexes idx raw_bitmap ↔
  ∃ k byte, e = idx + k ∧ raw_bitmap !! k = Some byte ∧ byte ≠ 0%Z.
Proof.
  revert idx. induction raw_bitmap as [|b rest IH]; intros idx; simpl.
  - rewrite elem_of_empty. split; [done|]. by intros (? & ? & _ & ? & _).
  - destruct (Z.eqb_spec b 0) as [->|Hb].
    + rewrite IH. split.
      * intros (k & byte & -> & H & Hnz). exists (S k), byte.
        split; [lia|done].
      * intros (k & byte & -> & H & Hnz). destruct k as [|k]; simpl in H.
        { by injection H as <-. }
        exists k, byte. split; [lia|done].
    + rewrite elem_of_union, elem_of_singleton, IH. split.
      * intros [->|(k & byte & -> & H & Hnz)].
        { exists 0, b. split; [lia|done]. }
        exists (S k), byte. split; [lia|done].
      * intros (k & byte & -> & H & Hnz). destruct k as [|k]; simpl in H.
        { left. lia. }
        right. exists k, byte. split; [lia|done].
Qed.

(** X1: [check_coverage] returns, without changing anything, the set of
    the indexes of the non-zero bytes of the shared map, and its flag is
    set exactly when one of these edges is missing from the global
    coverage. *)
Theorem check_coverage_spec (global_coverage : gset nat) (w : World) :
  ∃ flag current_coverage,
    check_coverage global_coverage w = Some ((flag, current_coverage), w) ∧
    (∀ e, e ∈ current_coverage ↔ ∃ byte, shm w !! e = Some byte ∧ byte ≠ 0%Z) ∧
    (flag = true ↔ ∃ e, e ∈ current_coverage ∧ e ∉ global_coverage).
Proof.
  unfold check_coverage. do 2 eexists. split; [reflexivity|]. split.
  - intros e. rewrite elem_of_nonzero_indexes. split.
    + intros (k & byte & -> & H). by exists byte.
    + intros (byte & H). by exists e, byte.
  - rewrite bool_decide_eq_true. split.
    + intros Hne. apply set_choose_L in Hne as [e He].
      exists e. by apply elem_of_difference in He.
    + intros (e & He & Hout) Hempty.
      assert (e ∈ nonzero_indexes 0 (shm w) ∖ global_coverage) as Hin
        by (by apply elem_of_difference).
      rewrite Hempty in Hin. by apply not_elem_of_empty in Hin.
Qed.

Lemma nonzero_indexes_zeros (idx n : nat) :
  nonzero_indexes idx (replicate n 0%Z) = ∅.
Proof. revert idx. induction n as [|n IH]; intros idx; simpl; [done|apply IH]. Qed.

(** X2: right after [clear_shm] the map holds [MAP_SIZE] zero bytes and
    [check_coverage] finds no edge and nothing new, whatever the global
    coverage is. *)
Theorem clear_shm_then_check_coverage (global_coverage : gset nat) (w : World) :
  ∃ w', (clear_shm ≫= λ _, check_coverage global_coverage) w
          = Some ((false, ∅), w') ∧
    Z.of_nat (length (shm w')) = MAP_SIZE ∧ fs w' = fs w ∧ stdout w' = stdout w.
Proof.
  eexists. split.
  - unfold mbind, M_bind, clear_shm, check_coverage. cbn [shm set_run].
    rewrite nonzero_indexes_zeros. do 3 f_equal.
    apply bool_decide_eq_false. intros H. apply H.
    apply leibniz_equiv. intros e. rewrite elem_of_difference, elem_of_empty. tauto.
  - cbn [shm set_run fs stdout]. rewrite length_replicate.
    split; [by rewrite Z2Nat.id|done].
Qed.

(** ** mutation.py: the dictionary *)

Lemma file_lines_from_line (line text rest : list Z) :
  10%Z ∉ text →
  file_lines_from line (text ++ 10%Z :: rest)
  = (line ++ text ++ [10%Z]) :: file_lines_from [] rest.
Proof.
  revert line. induction text as [|b text IH]; intros line Hnl; simpl.
  - done.
  - apply not_elem_of_cons in Hnl as [Hb Hnl].
    destruct (Z.eqb_spec b 10) as [->|_]; [done|].
    rewrite IH by done. by rewrite <- !app_assoc.
Qed.

Lemma until_quote_app (token rest : list Z) :
  34%Z ∉ token → until_quote (token ++ 34%Z :: rest) = token.
Proof.
  induction token as [|b token IH]; intros Hq; simpl; [done|].
  apply not_elem_of_cons in Hq as [Hb Hq].
  destruct (Z.eqb_spec b 34) as [->|_]; [done|]. by rewrite IH.
Qed.

Lemma until_quote_no_quote (line : list Z) : 34%Z ∉ until_quote line.
Proof.
  induction line as [|b line IH]; simpl; [apply not_elem_of_nil|].
  destruct (Z.eqb_spec b 34) as [->|Hb]; [apply not_elem_of_nil|].
  apply not_elem_of_cons. split; [congruence|done].
Qed.

Lemma file_lines_from_nil (text rest : list Z) :
  10%Z ∉ text →
  file_lines_from [] ((text ++ [10%Z]) ++ rest)
  = (text ++ [10%Z]) :: file_lines_from [] rest.
Proof.
  intros Hnl. rewrite <- app_assoc. simpl.
  by rewrite file_lines_from_line.
Qed.

Lemma render_line_body (l : DictLine) :
  line_ok l → ∃ text, render_line l = text ++ [10%Z] ∧ 10%Z ∉ text.
Proof.
  destruct l as [text| |token]; simpl.
  - intros Hnl. exists (35%Z :: text). split; [done|].
    apply not_elem_of_cons. by split.
  - intros _. exists []. split; [done|apply not_elem_of_nil].
  - intros [Hnl Hq]. exists (34%Z :: token ++ [34%Z]). split.
    + simpl. by rewrite <- app_assoc.
    + apply not_elem_of_cons. split; [done|].
      intros [?|Hin%list_elem_of_singleton]%elem_of_app; done.
Qed.

Lemma file_lines_render (ls : list DictLine) :
  Forall line_ok ls → file_lines (render_dictionary ls) = render_line <$> ls.
Proof.
  unfold file_lines, render_dictionary.
  induction 1 as [|l ls Hl _ IH]; [done|]. rewrite fmap_cons. simpl concat.
  destruct (render_line_body l Hl) as (text & -> & Hnl).
  rewrite file_lines_from_nil by done. by rewrite IH.
Qed.

Lemma dictionary_tokens_cons (line : list Z) (lines : list (list Z)) :
  dictionary_tokens (line :: lines)
  = if bool_decide (head line = Some 35%Z) || forallb is_space line
    then dictionary_tokens lines
    else if bool_decide (34%Z ∈ line)
         then until_quote (after_quote line) :: dictionary_tokens lines
         else dictionary_tokens lines.
Proof. reflexivity. Qed.

Lemma dictionary_tokens_render (ls : list DictLine) :
  Forall line_ok ls →
  dictionary_tokens (render_line <$> ls) = omap line_token ls.
Proof.
  induction 1 as [|l ls Hl _ IH]; [done|].
  rewrite fmap_cons, dictionary_tokens_cons, IH.
  destruct l as [text| |token].
  - rewrite bool_decide_eq_true_2 by done. done.
  - rewrite bool_decide_eq_false_2 by done. done.
  - destruct Hl as [_ Hq].
    rewrite bool_decide_eq_false_2 by done.
    replace (forallb is_space (render_line (DictToken token))) with false by done.
    rewrite bool_decide_eq_true_2 by (apply elem_of_cons; by left).
    cbn [orb render_line after_quote Z.eqb Pos.eqb omap list_omap line_token].
    by rewrite until_quote_app.
Qed.

(** X3: a dictionary file written in the documented format (comment
    lines, empty lines, tokens between double quotes, one per line, no
    newline inside a line and no quote inside a token) is read back as
    exactly its tokens, in order. *)
Theorem load_dictionary_round_trip
    (p : string) (ls : list DictLine) (w : World) :
  p ≠ "" → Forall line_ok ls →
  fs w !! p = Some (render_dictionary ls) →
  load_dictionary (Some p) w = Some (omap line_token ls, w).
Proof.
  intros Hp Hok Hfile. unfold load_dictionary.
  destruct (String.eqb_spec p ""); [done|]. rewrite Hfile.
  by rewrite file_lines_render, dictionary_tokens_render.
Qed.

Lemma load_dictionary_round_trip_witness :
  load_dictionary (Some "fuzz.dict")
    (set_fs {[ "fuzz.dict" :=
                 render_dictionary
                   [DictComment [32; 80; 78; 71]%Z; DictToken [73; 72; 68; 82]%Z;
                    DictBlank; DictToken [0; 255]%Z] ]} quiet_world)
  = Some ([[73; 72; 68; 82]; [0; 255]]%Z,
          set_fs {[ "fuzz.dict" :=
                      render_dictionary
                        [DictComment [32; 80; 78; 71]%Z;
                         DictToken [73; 72; 68; 82]%Z;
                         DictBlank; DictToken [0; 255]%Z] ]} quiet_world).
Proof.
  apply (load_dictionary_round_trip "fuzz.dict"
           [DictComment [32; 80; 78; 71]%Z; DictToken [73; 72; 68; 82]%Z;
            DictBlank; DictToken [0; 255]%Z]).
  - discriminate.
  - repeat constructor; simpl;
      try (apply (bool_decide_unpack _); vm_compute; exact I).
  - reflexivity.
Defined.

Lemma dictionary_tokens_no_quote (lines : list (list Z)) :
  Forall (λ token, 34%Z ∉ token) (dictionary_tokens lines).
Proof.
  induction lines as [|line lines IH]; [constructor|].
  unfold dictionary_tokens in *. simpl.
  destruct (_ || _); [done|]. case_bool_decide; [|done].
  constructor; [apply until_quote_no_quote|done].
Qed.




(** ** mutation.py: the bandit *)

Lemma tally_uses_cons (operator : Operator) (r : Report) (rs : list Report) :
  tally_uses operator (r :: rs)
  = ((if is_for operator r then 1 else 0) + tally_uses operator rs)%Z.
Proof.
  unfold tally_uses. rewrite filter_cons.
  destruct (is_for operator r); case_decide; try done; cbn [length]; lia.
Qed.

Lemma tally_crashes_cons (operator : Operator) (r : Report) (rs : list Report) :
  tally_crashes operator (r :: rs)
  = ((if is_for operator r && r.2 then 1 else 0) + tally_crashes operator rs)%Z.
Proof.
  unfold tally_crashes. rewrite filter_cons.
  destruct (is_for operator r && r.2); case_decide; try done; cbn [length]; lia.
Qed.

Lemma tally_rewards_cons (operator : Operator) (r : Report) (rs : list Report) :
  tally_rewards operator (r :: rs)
  = ((if is_for operator r then r.1.2 else 0) + tally_rewards operator rs)%Z.
Proof. unfold tally_rewards. simpl. destruct (is_for operator r); lia. Qed.

Lemma foldl_report_counters (rs : list Report) (self : MutationStrategy.t) :
  MutationStrategy.havoc_uses (foldl report self rs)
    = (MutationStrategy.havoc_uses self + tally_uses havoc rs)%Z ∧
  MutationStrategy.splice_uses (foldl report self rs)
    = (MutationStrategy.splice_uses self + tally_uses splice rs)%Z ∧
  MutationStrategy.havoc_rewards (foldl report self rs)
    = (MutationStrategy.havoc_rewards self + tally_rewards havoc rs)%Z ∧
  MutationStrategy.splice_rewards (foldl report self rs)
    = (MutationStrategy.splice_rewards self + tally_rewards splice rs)%Z ∧
  MutationStrategy.havoc_crashes (foldl report self rs)
    = (MutationStrategy.havoc_crashes self + tally_crashes havoc rs)%Z ∧
  MutationStrategy.splice_crashes (foldl report self rs)
    = (MutationStrategy.splice_crashes self + tally_crashes splice rs)%Z ∧
  MutationStrategy.havoc_mutator (foldl report self rs)
    = MutationStrategy.havoc_mutator self ∧
  MutationStrategy.splice_mutator (foldl report self rs)
    = MutationStrategy.splice_mutator self ∧
  MutationStrategy.epsilon (foldl report self rs) = MutationStrategy.epsilon self.
Proof.
  revert self. induction rs as [|[[op n] c] rs IH]; intros self.
  - unfold tally_uses, tally_rewards, tally_crashes. simpl. repeat split; lia.
  - simpl foldl. destruct (IH (report self (op, n, c)))
      as (-> & -> & -> & -> & -> & -> & -> & -> & ->).
    rewrite !tally_uses_cons, !tally_crashes_cons, !tally_rewards_cons.
    destruct op, c; cbn -[Z.add tally_uses tally_crashes tally_rewards];
      repeat split; lia.
Qed.

(** X5: from a fresh bandit, after any series of reports the counters are
    exact tallies: the uses of an operator count its reports, its rewards
    add up their coverage, its crashes count its crash reports; so the
    crashes of an operator never exceed its uses, and the mutators and
    epsilon are never touched. *)
Theorem bandit_counters_are_tallies
    (cf : Conf) (dictionary : list (list Z)) (rs : list Report) :
  let self := foldl report (MutationStrategy.init cf dictionary) rs in
  MutationStrategy.havoc_uses self = tally_uses havoc rs ∧
  MutationStrategy.splice_uses self = tally_uses splice rs ∧
  MutationStrategy.havoc_rewards self = tally_rewards havoc rs ∧
  MutationStrategy.splice_rewards self = tally_rewards splice rs ∧
  MutationStrategy.havoc_crashes self = tally_crashes havoc rs ∧
  MutationStrategy.splice_crashes self = tally_crashes splice rs ∧
  (MutationStrategy.havoc_uses self + MutationStrategy.splice_uses self
   = Z.of_nat (length rs))%Z ∧
  (0 ≤ MutationStrategy.havoc_crashes self ≤ MutationStrategy.havoc_uses self)%Z ∧
  (0 ≤ MutationStrategy.splice_crashes self ≤ MutationStrategy.splice_uses self)%Z ∧
  MutationStrategy.havoc_mutator self
    = MutationStrategy.havoc_mutator (MutationStrategy.init cf dictionary) ∧
  MutationStrategy.splice_mutator self
    = MutationStrategy.splice_mutator (MutationStrategy.init cf dictionary) ∧
  MutationStrategy.epsilon self = (1 # 10)%Q.
Proof.
  intros self. subst self.
  destruct (foldl_report_counters rs (MutationStrategy.init cf dictionary))
    as (-> & -> & -> & -> & -> & -> & -> & -> & ->).
  cbn [MutationStrategy.init MutationStrategy.havoc_uses
       MutationStrategy.splice_uses MutationStrategy.havoc_rewards
       MutationStrategy.splice_rewards MutationStrategy.havoc_crashes
       MutationStrategy.splice_crashes MutationStrategy.epsilon].
  assert (tally_uses havoc rs + tally_uses splice rs = Z.of_nat (length rs)
          ∧ 0 ≤ tally_crashes havoc rs ≤ tally_uses havoc rs
          ∧ 0 ≤ tally_crashes splice rs ≤ tally_uses splice rs)%Z as (? & ? & ?).
  { induction rs as [|[[op n] c] rs IH].
    - unfold tally_uses, tally_crashes. simpl. lia.
    - rewrite !tally_uses_cons, !tally_crashes_cons.
      destruct op, c; cbn -[Z.add tally_uses tally_crashes]; cbn [length]; lia. }
  repeat split; lia.
Qed.

Lemma Qleb_le (x y : Q) : Qleb x y = true ↔ (x <= y)%Q.
Proof.
  unfold Qleb, Qltb, Qle. rewrite negb_true_iff. apply Z.ltb_ge.
Qed.

Lemma Qltb_lt' (x y : Q) : Qltb x y = true ↔ (x < y)%Q.
Proof. unfold Qltb, Qlt. apply Z.ltb_lt. Qed.

(** Comparing two quotients of integers with positive denominators. *)
Lemma Qleb_quotients (a b c d : Z) :
  (0 < b)%Z → (0 < d)%Z →
  Qleb (inject_Z c / inject_Z d) (inject_Z a / inject_Z b) = true
  ↔ (c * b ≤ a * d)%Z.
Proof.
  intros Hb Hd. rewrite Qleb_le.
  destruct b as [|pb|pb]; try lia. destruct d as [|pd|pd]; try lia.
  unfold Qle, Qdiv, Qmult, Qinv, inject_Z. simpl. lia.
Qed.

Lemma random_choice_operator (w : World) :
  random_choice [havoc; splice] w
  = Some (if (tape w (pos w) `mod` 2 =? 0)%Z then havoc else splice,
          set_pos (S (pos w)) w).
Proof.
  unfold random_choice, mbind, M_bind, randint, mret, M_ret.
  change (Z.of_nat (length [havoc; splice]) - 1)%Z with 1%Z.
  change (1 - 0 + 1)%Z with 2%Z. cbn [Z.ltb Z.compare].
  pose proof (Z.mod_pos_bound (tape w (pos w)) 2 ltac:(lia)) as Hbound.
  rewrite Z.add_0_l.
  assert (tape w (pos w) `mod` 2 = 0 ∨ tape w (pos w) `mod` 2 = 1)%Z
    as [-> | ->] by lia; reflexivity.
Qed.




(** ** mutation.py: what havoc keeps *)

Lemma ensures_ret {A} (P : A → Prop) (x : A) : P x → ensures P (mret x).
Proof. intros HP w y w' [= <- <-]. done. Qed.

Lemma ensures_option {A} (P : A → Prop) (o : option A) :
  (∀ x, o = Some x → P x) → ensures P (lift_option o).
Proof. intros HP w y w'. destruct o; [|done]. intros [= <- <-]. by apply HP. Qed.

Lemma ensures_bind {A B} (Q : A → Prop) (P : B → Prop) (m : M A) (f : A → M B) :
  ensures Q m → (∀ x, Q x → ensures P (f x)) → ensures P (m ≫= f).
Proof.
  intros Hm Hf w y w' (x & w1 & Hx & Hy)%bind_Some.
  eapply Hf; [|exact Hy]. by eapply Hm.
Qed.

Lemma ensures_randint {A} (P : A → Prop) (lo hi : Z) (f : Z → M A) :
  (∀ x, (lo ≤ x ≤ hi)%Z → ensures P (f x)) → ensures P (randint lo hi ≫= f).
Proof.
  intros Hf. apply (ensures_bind (λ x, (lo ≤ x ≤ hi)%Z)); [|done].
  intros w x w' Hx. by apply randint_Some in Hx as [? _].
Qed.

Lemma ensures_choice {A B} (P : B → Prop) (l : list A) (f : A → M B) :
  (∀ x, x ∈ l → ensures P (f x)) → ensures P (random_choice l ≫= f).
Proof.
  intros Hf. apply (ensures_bind (λ x, x ∈ l)); [|done].
  intros w x w' Hx. by apply random_choice_Some in Hx as [? _].
Qed.

Lemma lxor_bit_is_byte (b bit_pos : Z) :
  (0 ≤ b < 256)%Z → (0 ≤ bit_pos ≤ 7)%Z →
  (0 ≤ Z.lxor b (Z.shiftl 1 bit_pos) < 256)%Z.
Proof.
  intros Hb Hbit. rewrite Z.shiftl_1_l.
  assert (0 < 2 ^ bit_pos)%Z as Hpow by (apply Z.pow_pos_nonneg; lia).
  assert (0 ≤ Z.lxor b (2 ^ bit_pos))%Z as Hnn by (apply Z.lxor_nonneg; lia).
  split; [done|].
  destruct (Z.eq_dec (Z.lxor b (2 ^ bit_pos)) 0%Z) as [->|Hnz]; [lia|].
  change 256%Z with (2 ^ 8)%Z. apply Z.log2_lt_pow2; [lia|].
  eapply Z.le_lt_trans; [apply Z.log2_lxor; lia|].
  apply Z.max_lub_lt.
  - destruct (Z.eq_dec b 0%Z) as [->|?]; [done|].
    apply Z.log2_lt_pow2; lia.
  - rewrite Z.log2_pow2 by lia. lia.
Qed.

Lemma le_bytes_is_bytes (size : nat) (value : Z) : is_bytes (le_bytes size value).
Proof.
  revert value. induction size as [|k IH]; intros v; simpl; constructor.
  - apply Z.mod_pos_bound. lia.
  - apply IH.
Qed.

Lemma pack_into_is_bytes (size : nat) (data data' : list Z) (idx : nat) (value : Z) :
  is_bytes data → pack_into size data idx value = Some data' → is_bytes data'.
Proof.
  unfold pack_into. intros Hdata. destruct (_ && _); [|done]. intros [= <-].
  unfold is_bytes. rewrite !Forall_app. split; [by apply Forall_take|].
  split; [apply le_bytes_is_bytes|by apply Forall_drop].
Qed.

Lemma assign_slice_is_bytes (data chunk : list Z) (a b : nat) :
  is_bytes data → is_bytes chunk → is_bytes (assign_slice data a b chunk).
Proof.
  intros Hdata Hchunk. unfold assign_slice, is_bytes. rewrite !Forall_app.
  split; [by apply Forall_take|]. split; [done|by apply Forall_drop].
Qed.

Lemma pack_or_fallback_ensures (P : list Z → Prop) (data : list Z)
    (size idx : nat) (value fallback : Z) :
  (∀ v data', pack_into size data idx v = Some data' → P data') →
  ensures P
    match pack_into size data idx value with
    | Some data' => mret data'
    | None => lift_option (pack_into size data idx fallback)
    end.
Proof.
  intros HP. destruct (pack_into size data idx value) eqn:Hpack.
  - apply ensures_ret. by eapply HP.
  - apply ensures_option. intros d Hd. by eapply HP.
Qed.

(** A postcondition that every write of a packed integer, every slice
    assignment by a chunk of the buffer and every bit flip keeps holds
    after each operator that does not read the dictionary. *)
Section plain_operators.
Context (P : list Z → Prop) (data : list Z).
Context (Hself : P data).
Context (Hpack : ∀ size idx v data',
           pack_into size data idx v = Some data' → P data').
Context (Hflip : ∀ idx b bit_pos, data !! idx = Some b → (0 ≤ bit_pos ≤ 7)%Z →
           P (<[idx := Z.lxor b (Z.shiftl 1 bit_pos)]> data)).
Context (Hchunk : ∀ src dst size, src + size ≤ length data →
           dst + size ≤ length data →
           P (assign_slice data dst (dst + size) (take size (drop src data)))).

Lemma bit_flip_ensures : ensures P (HavocMutator.bit_flip_mutation data).
Proof.
  unfold HavocMutator.bit_flip_mutation.
  apply ensures_randint. intros idx Hidx.
  apply ensures_randint. intros bit_pos Hbit.
  destruct (data !! Z.to_nat idx) as [b|] eqn:Hb; [|by intros ???].
  apply ensures_ret. by apply Hflip.
Qed.

Lemma integer_mutation_ensures : ensures P (HavocMutator.integer_mutation data).
Proof.
  unfold HavocMutator.integer_mutation.
  apply ensures_choice. intros [[size lo] hi] _.
  destruct (_ <? _)%Z; [by apply ensures_ret|].
  apply ensures_randint. intros idx _. apply ensures_randint. intros value _.
  apply ensures_option. intros d Hd. by eapply Hpack.
Qed.

Lemma interesting_value_mutation_ensures :
  ensures P (HavocMutator.interesting_value_mutation data).
Proof.
  unfold HavocMutator.interesting_value_mutation.
  apply ensures_choice. intros [size vals] _.
  destruct (_ <? _)%Z; [by apply ensures_ret|].
  apply ensures_randint. intros idx _. apply ensures_choice. intros value _.
  destruct (0 <? value)%Z; apply pack_or_fallback_ensures; eauto.
Qed.

Lemma chunk_replacement_mutation_ensures :
  ensures P (HavocMutator.chunk_replacement_mutation data).
Proof.
  unfold HavocMutator.chunk_replacement_mutation.
  destruct (_ <? _)%nat; [by apply ensures_ret|].
  apply ensures_randint. intros chunk_size Hc.
  apply ensures_randint. intros src_pos Hs.
  apply ensures_randint. intros dst_pos Hd.
  apply ensures_ret. apply Hchunk; lia.
Qed.

Lemma arithmetic_mutation_ensures :
  ensures P (HavocMutator.arithmetic_mutation data).
Proof.
  unfold HavocMutator.arithmetic_mutation.
  apply ensures_choice. intros [[size lo] hi] _.
  destruct (_ <? _)%Z; [by apply ensures_ret|].
  apply ensures_randint. intros idx _.
  apply (ensures_bind (λ _, True)); [by intros ????|]. intros value _.
  apply ensures_randint. intros delta _.
  destruct (0 <? delta)%Z; apply pack_or_fallback_ensures; eauto.
Qed.

End plain_operators.

(** An invariant of the buffer that every elementary write keeps is kept
    by the whole havoc. *)
Section havoc_invariant.
Context (I : list Z → Prop) (self : HavocMutator.t).
Context (Hpack : ∀ data size idx v data', I data →
           pack_into size data idx v = Some data' → I data').
Context (Hflip : ∀ data idx b bit_pos, I data → data !! idx = Some b →
           (0 ≤ bit_pos ≤ 7)%Z →
           I (<[idx := Z.lxor b (Z.shiftl 1 bit_pos)]> data)).
Context (Hchunk : ∀ data src dst size, I data → src + size ≤ length data →
           dst + size ≤ length data →
           I (assign_slice data dst (dst + size) (take size (drop src data)))).
Context (Hinsert : ∀ data token pos, I data →
           token ∈ HavocMutator.dictionary self →
           I (data ++ token) ∧ I (assign_slice data pos pos token)).
Context (Hreplace : ∀ data token pos, I data →
           token ∈ HavocMutator.dictionary self →
           pos + length token ≤ length data →
           I (assign_slice data pos (pos + length token) token)).

Lemma dictionary_insert_mutation_ensures (data : list Z) :
  I data → ensures I (HavocMutator.dictionary_insert_mutation self data).
Proof.
  intros Hdata. unfold HavocMutator.dictionary_insert_mutation.
  destruct (HavocMutator.dictionary self) as [|t0 ts] eqn:Hdict;
    [by apply ensures_ret|].
  apply ensures_choice. intros token Htoken.
  destruct (_ <? _)%nat;
    [apply ensures_ret; by apply (Hinsert data token 0)|].
  apply ensures_randint. intros pos _. apply ensures_ret.
  by apply (Hinsert data token (Z.to_nat pos)).
Qed.

Lemma dictionary_replace_mutation_ensures (data : list Z) :
  I data → ensures I (HavocMutator.dictionary_replace_mutation self data).
Proof.
  intros Hdata. unfold HavocMutator.dictionary_replace_mutation.
  destruct (HavocMutator.dictionary self) as [|t0 ts] eqn:Hdict;
    [by apply ensures_ret|].
  destruct (_ <? _)%nat; [by apply ensures_ret|].
  apply ensures_choice. intros token Htoken.
  destruct (Nat.ltb_spec (length data) (length token)); [by apply ensures_ret|].
  apply ensures_randint. intros pos Hpos. apply ensures_ret.
  apply Hreplace; [done..|lia].
Qed.

Lemma mutate_once_ensures (data : list Z) :
  I data → ensures I (HavocMutator.mutate_once self data).
Proof.
  intros Hdata. unfold HavocMutator.mutate_once.
  apply ensures_randint. intros choice _.
  repeat case_match;
    eauto using bit_flip_ensures, integer_mutation_ensures,
      interesting_value_mutation_ensures, chunk_replacement_mutation_ensures,
      arithmetic_mutation_ensures, dictionary_insert_mutation_ensures,
      dictionary_replace_mutation_ensures.
Qed.

Lemma mutate_loop_ensures (n : nat) (data : list Z) :
  I data → ensures I (HavocMutator.mutate_loop self n data).
Proof.
  revert data. induction n as [|n IH]; intros data Hdata; simpl.
  - by apply ensures_ret.
  - eapply ensures_bind; [by apply mutate_once_ensures|]. intros d Hd. by apply IH.
Qed.

Lemma havoc_ensures (data : list Z) :
  I data → ensures I (HavocMutator.havoc self data).
Proof.
  intros Hdata. unfold HavocMutator.havoc.
  apply ensures_randint. intros n _. by apply mutate_loop_ensures.
Qed.

End havoc_invariant.

Lemma assign_slice_length (data chunk : list Z) (a b : nat) :
  a ≤ b → b ≤ length data → length chunk = b - a →
  length (assign_slice data a b chunk) = length data.
Proof.
  intros. unfold assign_slice.
  rewrite !length_app, length_take, length_drop. lia.
Qed.

(** X7: on a buffer of at least one byte, [havoc] always returns, touches
    no file and never shortens the buffer; it keeps a buffer of bytes a
    buffer of bytes when the dictionary tokens are bytes, and with an
    empty dictionary it keeps the length. *)
Theorem havoc_keeps_buffer (self : HavocMutator.t) (data : list Z) (w : World) :
  1 ≤ length data →
  ∃ data' w',
    HavocMutator.havoc self data w = Some (data', w') ∧
    fs w' = fs w ∧ length data ≤ length data' ∧
    (is_bytes data → Forall is_bytes (HavocMutator.dictionary self) →
       is_bytes data') ∧
    (HavocMutator.dictionary self = [] → length data' = length data).
Proof.
  intros Hlen.
  destruct (havoc_returns self data Hlen w) as (data' & w' & Hrun & Hlen' & Hfs).
  exists data', w'. split; [done|]. split; [done|]. split; [done|]. split.
  - intros Hbytes Htokens. rewrite Forall_forall in Htokens.
    eapply (havoc_ensures is_bytes self); [..|exact Hbytes|exact Hrun].
    + intros. by eapply pack_into_is_bytes.
    + intros d idx b bit_pos Hd Hb Hbit. unfold is_bytes in *.
      apply Forall_insert; [done|]. apply lxor_bit_is_byte; [|done].
      rewrite Forall_forall in Hd. apply Hd. by eapply list_elem_of_lookup_2.
    + intros. apply assign_slice_is_bytes; [done|].
      by apply Forall_take, Forall_drop.
    + intros d token pos Hd Htoken. split.
      * apply Forall_app. split; [done|by apply Htokens].
      * apply assign_slice_is_bytes; [done|by apply Htokens].
    + intros. apply assign_slice_is_bytes; [done|by apply Htokens].
  - intros Hdict.
    eapply (havoc_ensures (λ d, length d = length data) self);
      [..|reflexivity|exact Hrun].
    + intros d size idx v d' Hd Hpack.
      by rewrite (pack_into_length _ _ _ _ _ Hpack).
    + intros. by rewrite length_insert.
    + intros d src dst size Hd Hsrc Hdst. rewrite assign_slice_length; [done|lia..|].
      rewrite length_take, length_drop. lia.
    + intros d token pos _ Htoken. rewrite Hdict in Htoken.
      by apply not_elem_of_nil in Htoken.
    + intros d token pos _ Htoken. rewrite Hdict in Htoken.
      by apply not_elem_of_nil in Htoken.
Qed.

Lemma havoc_keeps_buffer_witness :
  ∃ data' w',
    HavocMutator.havoc
      {| HavocMutator.conf := example_conf; HavocMutator.dictionary := [] |}
      [83; 69; 69; 68]%Z quiet_world = Some (data', w') ∧
    is_bytes data' ∧ length data' = 4.
Proof.
  destruct (havoc_keeps_buffer
              {| HavocMutator.conf := example_conf; HavocMutator.dictionary := [] |}
              [83; 69; 69; 68]%Z quiet_world)
    as (data' & w' & Hrun & _ & _ & Hbytes & Hlen); [simpl; lia|].
  exists data', w'. split; [exact Hrun|]. split.
  - apply Hbytes; [|constructor]. repeat constructor; lia.
  - by apply Hlen.
Defined.



(** ** mutation.py: what the mutators write *)

Lemma havoc_mutate_files (self : HavocMutator.t) (seed : Seed) (w w' : World) :
  HavocMutator.mutate self seed w = Some (tt, w') →
  fs w' = fs w ∨
  ∃ data data', fs w !! path seed = Some data ∧ 8 ≤ length data ∧
    length data ≤ length data' ∧
    fs w' = <[current_input (HavocMutator.conf self) := data']> (fs w).
Proof.
  unfold HavocMutator.mutate.
  intros (data & w0 & [Hfile ->]%read_file_Some & Hrest)%bind_Some.
  destruct (Nat.ltb_spec (length data) 8).
  { injection Hrest as <-. by left. }
  apply bind_Some in Hrest as (data' & w1 & Hhavoc & Hwrite).
  injection Hwrite as <-.
  destruct (havoc_returns self data ltac:(lia) w) as (d & w2 & Hrun & Hlen & Hfs).
  rewrite Hrun in Hhavoc. injection Hhavoc as <- <-.
  right. exists data, d. cbn [fs set_fs]. by rewrite Hfs.
Qed.

Lemma splice_mutate_files (cf : Conf) (dictionary : list (list Z))
    (seed : Seed) (seed_queue : list Seed) (w w' : World) :
  SpliceMutator.mutate (SpliceMutator.init cf dictionary) seed seed_queue w
    = Some (tt, w') →
  fs w' = fs w ∨ ∃ data', fs w' = <[current_input cf := data']> (fs w).
Proof.
  unfold SpliceMutator.mutate.
  cbn [SpliceMutator.init SpliceMutator.havoc_mutator SpliceMutator.conf].
  assert (∀ w0, fs w0 = fs w →
    HavocMutator.mutate
      {| HavocMutator.conf := cf; HavocMutator.dictionary := dictionary |}
      seed w0 = Some (tt, w') →
    fs w' = fs w ∨ ∃ data', fs w' = <[current_input cf := data']> (fs w))
    as Hhavoc.
  { intros w0 Hw0 [->|(d & d' & _ & _ & _ & ->)]%havoc_mutate_files.
    - by left.
    - right. exists d'. by rewrite Hw0. }
  destruct (length seed_queue <? 2)%nat; [by apply Hhavoc|].
  intros (other & wa & [_ ->]%random_choice_Some & Hrest)%bind_Some.
  apply bind_Some in Hrest as (data1 & wb & [_ ->]%read_file_Some & Hrest).
  apply bind_Some in Hrest as (data2 & wb & [_ ->]%read_file_Some & Hrest).
  destruct (_ || _); [by eapply Hhavoc; [|exact Hrest]|].
  apply bind_Some in Hrest as (p1 & wb & [_ ->]%randint_Some & Hrest).
  apply bind_Some in Hrest as (p2 & wb & [_ ->]%randint_Some & Hrest).
  apply bind_Some in Hrest as ([] & wb & Hwrite & Hrest).
  injection Hwrite as <-.
  apply havoc_mutate_files in Hrest as [->|(d & d' & _ & _ & _ & ->)].
  - right. eexists. reflexivity.
  - right. exists d'. cbn [fs set_fs set_pos HavocMutator.conf].
    by rewrite insert_insert_eq.
Qed.

Lemma load_dictionary_world (dict_file : option string) (w w' : World)
    (tokens : list (list Z)) :
  load_dictionary dict_file w = Some (tokens, w') → w' = w.
Proof.
  unfold load_dictionary. destruct dict_file as [p|]; [|by intros [= _ <-]].
  destruct (String.eqb p ""); [by intros [= _ <-]|].
  destruct (fs w !! p); by intros [= _ <-].
Qed.




(** ** main.py: one run of the fuzzing loop *)

Lemma index_edges_lookup (seed_coverage : gset nat) (id : nat)
    (index : gmap nat (list nat)) (e : nat) :
  (e ∈ seed_coverage →
   index_edges seed_coverage id index !! e
   = Some (default [] (index !! e) ++ [id])) ∧
  (e ∉ seed_coverage →
   index_edges seed_coverage id index !! e = index !! e).
Proof.
  unfold index_edges. revert e.
  apply (set_fold_ind_L (λ r (X : gset nat), ∀ e,
    (e ∈ X → r !! e = Some (default [] (index !! e) ++ [id])) ∧
    (e ∉ X → r !! e = index !! e))).
  - intros e. split; [by intros ?%not_elem_of_empty|done].
  - intros x X r Hx IH e.
    destruct (IH x) as [_ Hrx]. specialize (Hrx Hx).
    destruct (IH e) as [Hin Hout].
    destruct (decide (e = x)) as [->|Hne].
    + rewrite lookup_insert_eq, Hrx. split; [done|].
      intros Hnot. exfalso. apply Hnot, elem_of_union. left.
      by apply elem_of_singleton.
    + rewrite lookup_insert_ne by done. split.
      * intros [?%elem_of_singleton|?]%elem_of_union; [done|by apply Hin].
      * intros Hnot. apply Hout. intros ?. apply Hnot, elem_of_union. by right.
Qed.

(** X9: indexing the edges of a seed appends its id to the list of every
    edge it covers, starting a list for an edge not yet in the index, and
    leaves the list of every other edge alone. *)
Theorem index_edges_spec (seed_coverage : gset nat) (id : nat)
    (index : gmap nat (list nat)) :
  (∀ e, e ∈ seed_coverage →
     index_edges seed_coverage id index !! e
     = Some (default [] (index !! e) ++ [id])) ∧
  (∀ e, e ∉ seed_coverage →
     index_edges seed_coverage id index !! e = index !! e) ∧
  (∀ e ids, index !! e = Some ids →
     ∃ ids', index_edges seed_coverage id index !! e = Some ids' ∧
       ids `prefix_of` ids').
Proof.
  split; [|split].
  - intros e. apply index_edges_lookup.
  - intros e. apply index_edges_lookup.
  - intros e ids He.
    destruct (index_edges_lookup seed_coverage id index e) as [Hin Hout].
    destruct (decide (e ∈ seed_coverage)) as [H|H].
    + rewrite (Hin H), He. eexists. split; [done|]. by apply prefix_app_r.
    + rewrite (Hout H), He. by eexists.
Qed.

Lemma check_crash_value (status_code : Z) (w : World) :
  ∃ w', check_crash status_code w = Some (crash_status status_code, w') ∧
    fs w' = fs w ∧ tape w' = tape w ∧ pos w' = pos w ∧ target w' = target w ∧
    nruns w' = nruns w ∧ shm w' = shm w ∧ wall_clock w' = wall_clock w ∧
    (crash_status status_code = false → w' = w).
Proof.
  unfold check_crash, crash_status.
  destruct (bool_decide _ || negb _) eqn:Hcrash.
  - destruct (negb (Z.land status_code 128 =? 0)%Z); eexists;
      (split; [reflexivity|]); by repeat split.
  - exists w. by repeat split.
Qed.

Lemma copyfile_Some (src dst : string) (w : World) (data : list Z) :
  fs w !! src = Some data →
  copyfile src dst w = Some (tt, set_fs (<[dst := data]> (fs w)) w).
Proof.
  intros Hsrc. unfold copyfile, mbind, M_bind, read_file. by rewrite Hsrc.
Qed.

Lemma copyfile_inv (src dst : string) (w w' : World) :
  copyfile src dst w = Some (tt, w') →
  ∃ data, fs w !! src = Some data ∧ w' = set_fs (<[dst := data]> (fs w)) w.
Proof.
  unfold copyfile. intros (data & w1 & [Hsrc ->]%read_file_Some & Hw)%bind_Some.
  injection Hw as <-. by exists data.
Qed.

(** X10: a run whose status is not the timeout value and that
    [check_crash] takes for a crash is saved: the bytes of
    [current_input] are copied to the crashes folder under the name
    [crash_<time>_<basename of the seed's path>], the path is printed last,
    the operator gets one more use and one more crash with no reward, and
    queue, coverage and index stay as they are. *)
Theorem crash_is_saved
    (cf : Conf) (selected_seed : Seed) (operator : Operator)
    (status_code : Z) (exec_time : Q) (st : FuzzState) (w : World)
    (input : list Z) :
  status_code ≠ 9%Z → crash_status status_code = true →
  fs w !! current_input cf = Some input →
  ∃ st' w',
    fuzz_result cf selected_seed operator status_code exec_time st w
      = Some (st', w') ∧
    let crash_path :=
      path_join (crashes_folder cf)
        (crash_file_name (wall_clock w (nruns w)) (path selected_seed)) in
    fs w' = <[crash_path := input]> (fs w) ∧
    last (stdout w') = Some (MsgCrashSaved crash_path) ∧
    mutation_strategy st'
      = MutationStrategy.update_rewards (mutation_strategy st) operator 0 true ∧
    seed_queue st' = seed_queue st ∧
    global_coverage st' = global_coverage st ∧
    edge_to_seeds st' = edge_to_seeds st ∧
    exec_count st' = (exec_count st + 1)%Z.
Proof.
  intros Hstatus Hcrash Hinput. unfold fuzz_result.
  destruct (Z.eqb_spec status_code 9); [done|].
  destruct (check_crash_value status_code w)
    as (w1 & Hcheck & Hfs & _ & _ & _ & Hruns & _ & Hclock & _).
  unfold mbind at 1, M_bind at 1. rewrite Hcheck, Hcrash.
  unfold save_crash_input, time_now.
  unfold mbind at 1, M_bind at 1. unfold mbind at 1, M_bind at 1.
  unfold mbind at 1, M_bind at 1.
  fold (crash_file_name (wall_clock w1 (nruns w1)) (path selected_seed)).
  rewrite (copyfile_Some _ _ w1 input) by (by rewrite Hfs).
  do 2 eexists. split; [reflexivity|].
  cbn [fs set_fs set_stdout stdout mutation_strategy with_strategy with_stats
       seed_queue global_coverage edge_to_seeds exec_count].
  rewrite Hfs, Hruns, Hclock. split; [done|]. split; [|done].
  by rewrite last_snoc.
Qed.

Lemma crash_is_saved_witness :
  ∃ st' w',
    fuzz_result example_conf (seed_a 4) havoc 139 (1 # 100)
      (initial_state example_conf [])
      (two_file_world [1; 2; 3; 4]%Z [5; 6; 7; 8]%Z) = Some (st', w') ∧
    fs w' !! "out/crashes/crash_1700000000_a" = Some [9; 9]%Z ∧
    MutationStrategy.havoc_crashes (mutation_strategy st') = 1%Z.
Proof.
  destruct (crash_is_saved example_conf (seed_a 4) havoc 139 (1 # 100)
              (initial_state example_conf [])
              (two_file_world [1; 2; 3; 4]%Z [5; 6; 7; 8]%Z) [9; 9]%Z)
    as (st' & w' & Hrun & Hfs & _ & Hms & _); [done|reflexivity|reflexivity|].
  exists st', w'. split; [exact Hrun|]. split.
  - rewrite Hfs. apply lookup_insert_eq.
  - rewrite Hms. reflexivity.
Defined.

Lemma Seed_init_inv (p : string) (id : nat) (cov : gset nat) (t : Q)
    (w w' : World) (s : Seed) :
  Seed_init p id cov t w = Some (s, w') →
  ∃ data, fs w !! p = Some data ∧ w' = w ∧
    s = {| path := p; seed_id := id; coverage := cov; exec_time := t;
           file_size := Z.of_nat (length data); favored := false |}.
Proof.
  unfold Seed_init. intros (data & w1 & [Hp ->]%read_file_Some & Hs)%bind_Some.
  injection Hs as <- <-. by exists data.
Qed.

(** X11: a run that neither timed out nor crashed and whose coverage map
    shows an edge outside the global coverage adds one seed at the end of
    the queue: its id is the former queue length, its file
    [id_<id>] in the queue folder is a copy of [current_input], its
    coverage is what the map shows, it is not favored; the global coverage
    gains its edges and the index lists its id under each of them. *)
Theorem new_coverage_adds_seed
    (cf : Conf) (selected_seed : Seed) (operator : Operator)
    (status_code : Z) (exec_time : Q) (st : FuzzState) (w : World)
    (input : list Z) (edge : nat) :
  status_code ≠ 9%Z → crash_status status_code = false →
  edge ∈ nonzero_indexes 0 (shm w) → edge ∉ global_coverage st →
  fs w !! current_input cf = Some input →
  ∃ st' w',
    fuzz_result cf selected_seed operator status_code exec_time st w
      = Some (st', w') ∧
    let id := length (seed_queue st) in
    let new_seed_path := path_join (queue_folder cf) ("id_" +:+ pretty id) in
    let new_seed :=
      {| path := new_seed_path; seed_id := id;
         coverage := nonzero_indexes 0 (shm w); exec_time := exec_time;
         file_size := Z.of_nat (length input); favored := false |} in
    seed_queue st' = seed_queue st ++ [new_seed] ∧
    fs w' = <[new_seed_path := input]> (fs w) ∧
    global_coverage st' = global_coverage st ∪ nonzero_indexes 0 (shm w) ∧
    edge_to_seeds st'
      = index_edges (nonzero_indexes 0 (shm w)) id (edge_to_seeds st) ∧
    seed_queue_length st' = S (seed_queue_length st).
Proof.
  intros Hstatus Hcrash Hedge Hnew Hinput. unfold fuzz_result.
  destruct (Z.eqb_spec status_code 9); [done|].
  destruct (check_crash_value status_code w) as (w1 & Hcheck & _ & _ & _ & _ & _ & _ & _ & Hw1).
  rewrite (Hw1 Hcrash) in Hcheck.
  unfold mbind at 1, M_bind at 1. rewrite Hcheck, Hcrash.
  unfold mbind at 1, M_bind at 1, check_coverage.
  cbn [global_coverage with_stats].
  rewrite bool_decide_eq_true_2.
  2:{ intros Hempty.
      assert (edge ∈ nonzero_indexes 0 (shm w) ∖ global_coverage st) as Hin
        by (by apply elem_of_difference).
      rewrite Hempty in Hin. by apply not_elem_of_empty in Hin. }
  unfold mbind at 1, M_bind at 1, print.
  unfold mbind at 1, M_bind at 1.
  cbn [seed_queue with_stats].
  rewrite (copyfile_Some _ _ _ input) by done.
  unfold mbind at 1, M_bind at 1, Seed_init.
  unfold mbind at 1, M_bind at 1, read_file. cbn [fs set_fs set_stdout].
  rewrite lookup_insert_eq.
  do 2 eexists. split; [reflexivity|]. by repeat split.
Qed.

Lemma new_coverage_adds_seed_witness :
  ∃ st' w',
    fuzz_result example_conf (seed_a 4) havoc 0 (1 # 100)
      (initial_state example_conf [])
      (set_run 1 [0; 0; 1]%Z (two_file_world [1; 2; 3; 4]%Z [5; 6; 7; 8]%Z))
      = Some (st', w') ∧
    seed_id <$> seed_queue st' = [0] ∧
    fs w' !! "out/queue/id_0" = Some [9; 9]%Z ∧
    edge_to_seeds st' !! 2 = Some [0].
Proof.
  destruct (new_coverage_adds_seed example_conf (seed_a 4) havoc 0 (1 # 100)
              (initial_state example_conf [])
              (set_run 1 [0; 0; 1]%Z (two_file_world [1; 2; 3; 4]%Z [5; 6; 7; 8]%Z))
              [9; 9]%Z 2)
    as (st' & w' & Hrun & Hq & Hfs & _ & Hindex & _).
  - done.
  - reflexivity.
  - apply (bool_decide_unpack _). vm_compute. exact I.
  - apply not_elem_of_empty.
  - reflexivity.
  - exists st', w'. split; [exact Hrun|]. split; [by rewrite Hq|]. split.
    + rewrite Hfs. apply lookup_insert_eq.
    + rewrite Hindex. vm_compute. reflexivity.
Defined.



(** ** main.py: what the loops do to queue, coverage and index *)

Lemma same_seeds_refl (q : list Seed) : same_seeds q q.
Proof. done. Qed.

Lemma same_seeds_trans (q1 q2 q3 : list Seed) :
  same_seeds q1 q2 → same_seeds q2 q3 → same_seeds q1 q3.
Proof. unfold same_seeds. congruence. Qed.

Lemma queue_step_stay (dense : bool) (st st' : FuzzState) :
  seed_queue st' = seed_queue st → global_coverage st' = global_coverage st →
  edge_to_seeds st' = edge_to_seeds st → queue_step dense st st'.
Proof. intros Hq ??. apply queue_step_flags; [|done..]. by rewrite Hq. Qed.

Lemma print_inv (m : Msg) (w w' : World) (u : unit) :
  print m w = Some (u, w') → w' = set_stdout (stdout w ++ [m]) w.
Proof. by intros [= _ <-]. Qed.

Lemma check_crash_inv (status_code : Z) (w w' : World) (b : bool) :
  check_crash status_code w = Some (b, w') → fs w' = fs w ∧ shm w' = shm w.
Proof.
  unfold check_crash. destruct (_ || _); [|by intros [= _ <-]].
  destruct (negb _); by intros [= _ <-].
Qed.

(** What follows a run of the fuzzing loop is one step. *)
Lemma fuzz_result_step (cf : Conf) (selected_seed : Seed) (operator : Operator)
    (status_code : Z) (exec_time : Q) (st st' : FuzzState) (w w' : World) :
  fuzz_result cf selected_seed operator status_code exec_time st w
    = Some (st', w') →
  queue_step true st st'.
Proof.
  unfold fuzz_result. destruct (status_code =? 9)%Z.
  { intros (u & w1 & _ & Hret)%bind_Some. injection Hret as <- _.
    by apply queue_step_stay. }
  intros (crashed & w1 & Hcheck & Hrest)%bind_Some. destruct crashed.
  { apply bind_Some in Hrest as (p & w2 & _ & Hrest).
    apply bind_Some in Hrest as (u & w3 & _ & Hret). injection Hret as <- _.
    by apply queue_step_stay. }
  apply bind_Some in Hrest as ([flag cov] & w2 & Hcov & Hrest).
  injection Hcov as <- <- <-. destruct (bool_decide _).
  - apply bind_Some in Hrest as (u & w2 & _ & Hrest).
    apply bind_Some in Hrest as (u' & w3 & _ & Hrest).
    apply bind_Some in Hrest as (s & w4 & Hseed & Hret).
    apply Seed_init_inv in Hseed as (data & _ & _ & ->).
    injection Hret as <- _.
    eapply queue_step_add; [| |reflexivity..]; done.
  - injection Hrest as <- _. by apply queue_step_stay.
Qed.

Lemma fuzz_one_step (cf : Conf) (selected_seed : Seed) (st st' : FuzzState)
    (w w' : World) :
  fuzz_one cf selected_seed st w = Some (st', w') → queue_step true st st'.
Proof.
  unfold fuzz_one. intros (op & w1 & _ & Hrest)%bind_Some.
  apply bind_Some in Hrest as ([status t] & w2 & _ & Hres).
  by eapply fuzz_result_step.
Qed.

Lemma fuzz_many_steps (cf : Conf) (selected_seed : Seed) (n : nat)
    (st st' : FuzzState) (w w' : World) :
  fuzz_many cf selected_seed n st w = Some (st', w') →
  rtc (queue_step true) st st'.
Proof.
  revert st w. induction n as [|n IH]; intros st w; simpl.
  - intros [= <- _]. done.
  - intros (st1 & w1 & Hone & Hmany)%bind_Some.
    eapply rtc_l; [by eapply fuzz_one_step|by eapply IH].
Qed.

(** The favored pass, when it returns, changes favored flags only. *)
Lemma mark_edge_same_seeds (q q' : list Seed) (seed_ids : list nat) :
  mark_edge q seed_ids = Some q' → same_seeds q q'.
Proof.
  unfold mark_edge. destruct (mapM _ seed_ids) as [refs|] eqn:Hrefs; [|done].
  simpl. destruct (sort_by_key _ refs) as [|[ref s] rest] eqn:Hsort; [done|].
  intros [= <-]. apply mapM_Some_1 in Hrefs.
  assert ((ref, s) ∈ refs) as Hin.
  { pose proof (head_sort_by_key (λ r : nat * Seed, get_valuation r.2) refs) as Hhd.
    rewrite Hsort in Hhd. simpl in Hhd. symmetry in Hhd.
    by apply first_min_elem_of in Hhd. }
  assert (q !! ref = Some s) as Hs.
  { apply list_elem_of_lookup in Hin as [i Hi].
    destruct (Forall2_lookup_r _ _ _ _ _ Hrefs Hi) as (id & _ & Hid).
    destruct (q !! id) eqn:Hq; simplify_eq/=. done. }
  apply same_seeds_insert; [done|exact Hs].
Qed.

Lemma update_favored_seeds_same_seeds (q q' : list Seed)
    (index : gmap nat (list nat)) :
  update_favored_seeds q index = Some q' → same_seeds q q'.
Proof.
  unfold update_favored_seeds. revert q'.
  apply (map_fold_weak_ind (λ r _, ∀ q', r = Some q' → same_seeds q q')).
  - intros q' [= <-]. unfold same_seeds.
    rewrite <- list_fmap_compose. by apply list_fmap_ext.
  - intros e ids m r _ IH q'. destruct r as [q1|]; [|done]. simpl.
    intros Hmark%mark_edge_same_seeds.
    eapply same_seeds_trans; [by apply IH|done].
Qed.

Lemma select_next_seed_queue (q : list Seed) (used : gset nat) (count : nat)
    (w w' : World) (sel : option Seed) used' count' nc :
  select_next_seed q used count w = Some ((sel, used', count', nc), w') →
  match sel with Some s => s ∈ q | None => q = [] end.
Proof.
  destruct q as [|s0 q0] eqn:Hq.
  - by intros [= <- _ _ _ _].
  - rewrite <- Hq. intros Hsel.
    destruct (select_next_seed_Some q used count w w' _ ltac:(by subst) Hsel)
      as (s & Hr & Hin & _).
    by injection Hr as -> _ _ _.
Qed.

Lemma fuzz_round_steps (cf : Conf) (st st' : FuzzState) (w w' : World) :
  fuzz_round cf st w = Some (Some st', w') → rtc (queue_step true) st st'.
Proof.
  unfold fuzz_round.
  intros ([[[sel used] count] nc] & w1 & _ & Hrest)%bind_Some.
  apply bind_Some in Hrest as (st1 & w2 & Hflags & Hrest).
  assert (queue_step true st st1) as Hstep1.
  { destruct nc.
    - apply bind_Some in Hflags as (u & w3 & _ & Hflags).
      apply bind_Some in Hflags as (q & w4 & Hq & Hret).
      injection Hret as <- _.
      destruct (update_favored_seeds _ _) as [q1|] eqn:Hpass; [|done].
      injection Hq as <- _. apply update_favored_seeds_same_seeds in Hpass.
      by apply queue_step_flags.
    - injection Hflags as <- _. by apply queue_step_stay. }
  destruct sel as [s|].
  - apply bind_Some in Hrest as (st2 & w3 & Hmany & Hret).
    injection Hret as <- _.
    eapply rtc_l; [exact Hstep1|by eapply fuzz_many_steps].
  - apply bind_Some in Hrest as (u & w3 & _ & Hret). done.
Qed.

Lemma fuzz_loop_steps (cf : Conf) (rounds : nat) (st st' : FuzzState)
    (w w' : World) :
  fuzz_loop cf rounds st w = Some (st', w') → rtc (queue_step true) st st'.
Proof.
  revert st w. induction rounds as [|n IH]; intros st w; simpl.
  - by intros [= <- _].
  - intros ([st1|] & w1 & Hround & Hrest)%bind_Some.
    + etrans; [by eapply fuzz_round_steps|by eapply IH].
    + by injection Hrest as <- _.
Qed.

Lemma queue_step_weaken (st st' : FuzzState) :
  queue_step true st st' → queue_step false st st'.
Proof.
  intros [s ? ? ? ? ?|? ? ?]; [eapply queue_step_add|apply queue_step_flags];
    done.
Qed.

Lemma dry_run_result_step (cf : Conf) (i : nat) (seed_file seed_path : string)
    (status_code : Z) (exec_time : Q) (st st' : FuzzState) (w w' : World) :
  dry_run_result cf i seed_file seed_path status_code exec_time st w
    = Some (st', w') →
  queue_step false st st'.
Proof.
  unfold dry_run_result. destruct (status_code =? 9)%Z.
  { intros (u & w1 & _ & Hret)%bind_Some. injection Hret as <- _.
    by apply queue_step_stay. }
  intros (crashed & w1 & Hcheck & Hrest)%bind_Some. destruct crashed.
  { apply bind_Some in Hrest as (u & w2 & _ & Hret). injection Hret as <- _.
    by apply queue_step_stay. }
  apply bind_Some in Hrest as ([flag cov] & w2 & Hcov & Hrest).
  injection Hcov as <- <- <-.
  apply bind_Some in Hrest as (s & w4 & Hseed & Hret).
  apply Seed_init_inv in Hseed as (data & _ & _ & ->).
  injection Hret as <- _.
  eapply queue_step_add; [| |reflexivity..]; done.
Qed.

Lemma dry_run_steps (cf : Conf) (seed_files : list string) (i : nat)
    (st st' : FuzzState) (w w' : World) :
  dry_run cf i seed_files st w = Some (st', w') →
  rtc (queue_step false) st st'.
Proof.
  revert i st w. induction seed_files as [|f fs IH]; intros i st w; simpl.
  - by intros [= <- _].
  - intros (st1 & w1 & Hone & Hrest)%bind_Some.
    unfold dry_run_one in Hone.
    apply bind_Some in Hone as (u & w2 & _ & Hone).
    apply bind_Some in Hone as ([status t] & w3 & _ & Hone).
    eapply rtc_l; [by eapply dry_run_result_step|by eapply IH].
Qed.

Lemma run_dry_run_steps (cf : Conf) (dictionary : list (list Z))
    (seed_files : list string) (st : FuzzState) (w w' : World) :
  run_dry_run cf dictionary seed_files w = Some (st, w') →
  rtc (queue_step false) (initial_state cf dictionary) st.
Proof.
  unfold run_dry_run. intros (st1 & w1 & Hdry & Hrest)%bind_Some.
  apply bind_Some in Hrest as (q & w2 & Hq & Hrest).
  apply bind_Some in Hrest as (u & w3 & _ & Hret). injection Hret as <- _.
  destruct (update_favored_seeds _ _) as [q1|] eqn:Hpass; [|done].
  injection Hq as <- _. apply update_favored_seeds_same_seeds in Hpass.
  eapply rtc_r; [by eapply dry_run_steps|]. by apply queue_step_flags.
Qed.



Lemma queue_step_grows (dense : bool) (st st' : FuzzState) :
  rtc (queue_step dense) st st' →
  (unmark_favored <$> seed_queue st) `prefix_of` (unmark_favored <$> seed_queue st') ∧
  global_coverage st ⊆ global_coverage st' ∧
  ∀ e ids, edge_to_seeds st !! e = Some ids →
    ∃ ids', edge_to_seeds st' !! e = Some ids' ∧ ids `prefix_of` ids'.
Proof.
  induction 1 as [st|st st1 st' Hstep _ (IHq & IHg & IHi)].
  - split; [done|]. split; [done|]. intros e ids He. by exists ids.
  - assert ((unmark_favored <$> seed_queue st)
              `prefix_of` (unmark_favored <$> seed_queue st1) ∧
            global_coverage st ⊆ global_coverage st1 ∧
            ∀ e ids, edge_to_seeds st !! e = Some ids →
              ∃ ids', edge_to_seeds st1 !! e = Some ids' ∧ ids `prefix_of` ids')
      as (Hq & Hg & Hi).
    { destruct Hstep as [s _ _ Hq Hg Hi|Hq Hg Hi].
      - rewrite Hq, Hg, Hi, fmap_app. split; [by apply prefix_app_r|].
        split; [apply union_subseteq_l|].
        intros e ids He.
        destruct (index_edges_lookup (coverage s) (seed_id s) (edge_to_seeds st) e)
          as [Hin Hout].
        destruct (decide (e ∈ coverage s)) as [H|H].
        + rewrite (Hin H), He. eexists. split; [done|]. by apply prefix_app_r.
        + rewrite (Hout H), He. by eexists.
      - rewrite Hq, Hg, Hi. split; [done|]. split; [done|].
        intros e ids He. by exists ids. }
    split; [by etrans|]. split; [by etrans|].
    intros e ids He. destruct (Hi e ids He) as (ids1 & He1 & Hp1).
    destruct (IHi e ids1 He1) as (ids' & He' & Hp'). exists ids'.
    split; [done|by etrans].
Qed.

(** X12: a run of [run_fuzzing] changes the queue, the global coverage
    and the index only by appending a seed that is not favored, merging
    its coverage and indexing its edges under its id, or by recomputing
    favored flags; in the fuzzing loop the id of an appended seed is the
    queue length.  So no seed is ever removed, moved or rewritten, the
    global coverage never shrinks and the list of an edge is only ever
    extended at its end. *)
Theorem run_fuzzing_only_appends
    (cf : Conf) (dictionary : list (list Z)) (seed_files : list string)
    (rounds : nat) (w w' : World) (st : FuzzState) :
  run_fuzzing cf dictionary seed_files rounds w = Some (st, w') →
  ∃ st0 w0,
    run_dry_run cf dictionary seed_files w = Some (st0, w0) ∧
    rtc (queue_step false) (initial_state cf dictionary) st0 ∧
    rtc (queue_step true) st0 st ∧
    (unmark_favored <$> seed_queue st0)
      `prefix_of` (unmark_favored <$> seed_queue st) ∧
    global_coverage st0 ⊆ global_coverage st ∧
    ∀ e ids, edge_to_seeds st0 !! e = Some ids →
      ∃ ids', edge_to_seeds st !! e = Some ids' ∧ ids `prefix_of` ids'.
Proof.
  unfold run_fuzzing. intros (st0 & w0 & Hdry & Hloop)%bind_Some.
  exists st0, w0. split; [done|]. split; [by eapply run_dry_run_steps|].
  apply fuzz_loop_steps in Hloop. split; [done|].
  by apply queue_step_grows in Hloop.
Qed.

Lemma same_seeds_elem_of (q q' : list Seed) (s : Seed) :
  same_seeds q q' → s ∈ q →
  ∃ s', s' ∈ q' ∧ seed_id s' = seed_id s ∧ coverage s' = coverage s.
Proof.
  intros Hsame Hs.
  assert (unmark_favored s ∈ unmark_favored <$> q') as Hin.
  { rewrite Hsame. by apply list_elem_of_fmap_2. }
  apply list_elem_of_fmap in Hin as (s' & Heq & Hs').
  exists s'. split; [done|].
  assert (seed_id (unmark_favored s') = seed_id (unmark_favored s)
          ∧ coverage (unmark_favored s') = coverage (unmark_favored s))
    as [? ?] by (by rewrite Heq).
  done.
Qed.

Lemma same_seeds_sym (q q' : list Seed) : same_seeds q q' → same_seeds q' q.
Proof. unfold same_seeds. congruence. Qed.

Lemma queue_step_consistent (dense : bool) (st st' : FuzzState) :
  queue_step dense st st' → coverage_consistent st → coverage_consistent st'.
Proof.
  intros Hstep [Hglobal Hindex].
  destruct Hstep as [s _ _ Hq Hg Hi|Hq Hg Hi]; split.
  - intros e. rewrite Hg, Hq, elem_of_union, Hglobal. split.
    + intros [(s' & Hs' & He)|He].
      * exists s'. split; [|done]. apply elem_of_app. by left.
      * exists s. split; [|done]. apply elem_of_app. right. by left.
    + intros (s' & [Hs'|Hs'%list_elem_of_singleton]%elem_of_app & He).
      * left. by exists s'.
      * right. by subst.
  - intros e id. rewrite Hi, Hq.
    destruct (index_edges_lookup (coverage s) (seed_id s) (edge_to_seeds st) e)
      as [Hin Hout].
    destruct (decide (e ∈ coverage s)) as [He|He].
    + rewrite (Hin He). split.
      * intros (ids & [= <-] & [Hid|Hid%list_elem_of_singleton]%elem_of_app).
        -- destruct (edge_to_seeds st !! e) as [old|] eqn:Hold; simpl in Hid;
             [|by apply not_elem_of_nil in Hid].
           destruct (proj1 (Hindex e id)) as (s' & Hs' & ? & ?); [by exists old|].
           exists s'. split; [|done]. apply elem_of_app. by left.
        -- exists s. split; [|done]. apply elem_of_app. right. by left.
      * intros (s' & [Hs'|Hs'%list_elem_of_singleton]%elem_of_app & Hid & He').
        -- destruct (proj2 (Hindex e id)) as (old & Hold & Hin');
             [by exists s'|].
           eexists. split; [done|]. rewrite Hold. apply elem_of_app. by left.
        -- subst. eexists. split; [done|]. apply elem_of_app. right. by left.
    + rewrite (Hout He), Hindex. split.
      * intros (s' & Hs' & ? & ?). exists s'. split; [|done].
        apply elem_of_app. by left.
      * intros (s' & [Hs'|Hs'%list_elem_of_singleton]%elem_of_app & Hid & He').
        -- by exists s'.
        -- by subst.
  - intros e. rewrite Hg, Hglobal. split; intros (s & Hs & He).
    + destruct (same_seeds_elem_of _ _ s Hq Hs) as (s' & ? & ? & Hc).
      exists s'. by rewrite Hc.
    + destruct (same_seeds_elem_of _ _ s (same_seeds_sym _ _ Hq) Hs)
        as (s' & ? & ? & Hc).
      exists s'. by rewrite Hc.
  - intros e id. rewrite Hi, Hindex. split; intros (s & Hs & Hid & He).
    + destruct (same_seeds_elem_of _ _ s Hq Hs) as (s' & ? & Hi' & Hc).
      exists s'. by rewrite Hi', Hc.
    + destruct (same_seeds_elem_of _ _ s (same_seeds_sym _ _ Hq) Hs)
        as (s' & ? & Hi' & Hc).
      exists s'. by rewrite Hi', Hc.
Qed.

Lemma rtc_queue_step_consistent (dense : bool) (st st' : FuzzState) :
  rtc (queue_step dense) st st' → coverage_consistent st →
  coverage_consistent st'.
Proof. induction 1; eauto using queue_step_consistent. Qed.

(** X13: after any run of [run_fuzzing], skipped seeds or not, the global
    coverage is the union of the coverage of the seeds in the queue, and
    the index lists under an edge exactly the ids of the seeds that cover
    it. *)
Theorem run_fuzzing_coverage_consistent
    (cf : Conf) (dictionary : list (list Z)) (seed_files : list string)
    (rounds : nat) (w w' : World) (st : FuzzState) :
  run_fuzzing cf dictionary seed_files rounds w = Some (st, w') →
  coverage_consistent st.
Proof.
  unfold run_fuzzing. intros (st0 & w0 & Hdry & Hloop)%bind_Some.
  apply run_dry_run_steps in Hdry. apply fuzz_loop_steps in Hloop.
  eapply rtc_queue_step_consistent; [exact Hloop|].
  eapply rtc_queue_step_consistent; [exact Hdry|].
  split.
  - intros e. cbn [initial_state global_coverage seed_queue]. split.
    + by intros ?%not_elem_of_empty.
    + by intros (s & ?%not_elem_of_nil & _).
  - intros e id. cbn [initial_state edge_to_seeds seed_queue]. split.
    + intros (ids & Hids & _). by rewrite lookup_empty in Hids.
    + by intros (s & ?%not_elem_of_nil & _).
Qed.

Lemma run_fuzzing_only_appends_witness :
  ∃ st w' st0 w0,
    run_fuzzing example_conf [] ["seed"] 1 (one_seed_world [1]%Z [1; 0; 1]%Z)
      = Some (st, w') ∧
    run_dry_run example_conf [] ["seed"] (one_seed_world [1]%Z [1; 0; 1]%Z)
      = Some (st0, w0) ∧
    rtc (queue_step true) st0 st ∧
    global_coverage st0 ⊆ global_coverage st.
Proof.
  eassert (run_fuzzing example_conf [] ["seed"] 1
             (one_seed_world [1]%Z [1; 0; 1]%Z) = Some (_, _)) as Hrun.
  { vm_compute. reflexivity. }
  destruct (run_fuzzing_only_appends _ _ _ _ _ _ _ Hrun)
    as (st0 & w0 & Hdry & _ & Hsteps & _ & Hsub & _).
  eexists _, _, st0, w0. split; [exact Hrun|]. split; [exact Hdry|].
  split; [exact Hsteps|exact Hsub].
Defined.

Lemma run_fuzzing_coverage_consistent_witness :
  ∃ st w',
    run_fuzzing example_conf [] ["seed"] 1 (one_seed_world [1]%Z [1; 0; 1]%Z)
      = Some (st, w') ∧
    coverage_consistent st.
Proof.
  eassert (run_fuzzing example_conf [] ["seed"] 1
             (one_seed_world [1]%Z [1; 0; 1]%Z) = Some (_, _)) as Hrun.
  { vm_compute. reflexivity. }
  eexists _, _. split; [exact Hrun|].
  exact (run_fuzzing_coverage_consistent _ _ _ _ _ _ _ Hrun).
Defined.

